(** * angr [Project]: address-space assembly and the reference crawler

    A shallow embedding of [src/project.py] (Python 2) and the properties
    of its loader, import resolvers and static crawler.

    Conventions of the embedding:
    - Python integers are [Z]; on integers Python 2's [/] is floor
      division and [%] takes the sign of the divisor, which are [Z.div]
      and [Z.modulo];
    - a [dict] is a [gmap], a [set] a [gset], a [collections.defaultdict
      (list)] a [gmap] read with the total lookup [!!!];
    - a [list] used as a stack ([append] / [pop()]) is kept with its last
      element first, so that [append] is [cons] and [pop()] takes the
      head;
    - the collaborators that are not part of [project.py] ([Binary],
      [MemoryDict], [simuvex], [md5], [os.path], the order in which
      [set.pop] and [dict.values] enumerate) are records, parameters or
      oracles. *)

From Stdlib Require Import ZArith Lia.
From Stdlib.Strings Require Import Byte.
From stdpp Require Import gmap strings list fin_maps fin_sets.

(* [set_solver] clears hypotheses that it has already consumed. *)
Set Warnings "-clear-no-such-hyp".

Local Open Scope Z_scope.

(** [granularity = 0x1000000] *)
Definition granularity : Z := 0x1000000.

(** ** Binary images *)

Module Binary.

(** Modelled from the spec: the class [Binary] ([from .binary import
    Binary]) is not part of the sources. An image has an address range,
    an entry address, the names of the libraries it depends on, an
    export table (name, type) whose addresses are looked up one by one
    (the lookup may raise), an import table (name, patch sites), the
    slots of the imports that were patched, and the bytes of its own
    memory ([binary.ida.mem]). *)
Record t := mk {
  filename : string;
  min_addr : Z;
  max_addr : Z;
  entry : Z;
  get_lib_names : list string;
  get_exports : list (string * string);
  symbol_addrs : gmap string Z;
  get_imports : list (string * list Z);
  resolved_imports : gmap string Z;
  ida_mem : gmap Z byte
}.

(** [lib.get_symbol_addr(export)]: [None] stands for a raised
    exception. *)
Definition get_symbol_addr (b : t) (name : string) : option Z :=
  symbol_addrs b !! name.

(** [binary.get_import_addrs(func_name)]: the patch sites of an import,
    none when the image does not import the name. *)
Definition get_import_addrs (b : t) (name : string) : list Z :=
  mjoin (snd <$> filter (λ e, e.1 = name) (get_imports b)).

(** Modelled from the spec: "Rebasing: shifting an image's virtual
    address range by a fixed delta". *)
Definition rebase (delta : Z) (b : t) : t :=
  mk (filename b) (min_addr b + delta) (max_addr b + delta) (entry b)
     (get_lib_names b) (get_exports b) (symbol_addrs b) (get_imports b)
     (resolved_imports b) (ida_mem b).

(** Modelled from the spec: [Image.patch_import(name, address)] stores
    the address in the slot of the import. *)
Definition resolve_import (name : string) (addr : Z) (b : t) : t :=
  mk (filename b) (min_addr b) (max_addr b) (entry b)
     (get_lib_names b) (get_exports b) (symbol_addrs b) (get_imports b)
     (<[name := addr]> (resolved_imports b)) (ida_mem b).

(** [binary.ida.mem[addr] = byte] *)
Definition set_mem (addr : Z) (p : byte) (b : t) : t :=
  mk (filename b) (min_addr b) (max_addr b) (entry b)
     (get_lib_names b) (get_exports b) (symbol_addrs b) (get_imports b)
     (resolved_imports b) (<[addr := p]> (ida_mem b)).

End Binary.

(** ** The project *)

(** The attributes of a [Project] that the loader and the resolvers read
    and write. [SimProcedure] is the type of the stub classes stored in
    [sim_procedures]. *)
Record Project {SimProcedure : Type} := mkProject {
  binaries : gmap string Binary.t;
  filename : string;
  min_addr : Z;
  max_addr : Z;
  entry : Z;
  sim_procedures : gmap Z SimProcedure
}.
Arguments Project : clear implicits.
Arguments mkProject {SimProcedure}.

Section Loader.
Context {SimProcedure : Type}.
Implicit Type p : Project SimProcedure.

(** [Project.__init__] up to the loading of the libraries: the main
    image is registered under its file name and spans the envelope. *)
Definition init (main : Binary.t) : Project SimProcedure :=
  mkProject {[ Binary.filename main := main ]} (Binary.filename main)
            (Binary.min_addr main) (Binary.max_addr main)
            (Binary.entry main) ∅.

(** [self.binaries[name] = b] *)
Definition set_binary (name : string) (b : Binary.t) p :=
  mkProject (<[name := b]> (binaries p)) (filename p) (min_addr p)
            (max_addr p) (entry p) (sim_procedures p).

(** [self.min_addr = lo; self.max_addr = hi] *)
Definition set_envelope (lo hi : Z) p :=
  mkProject (binaries p) (filename p) lo hi (entry p) (sim_procedures p).

(** [Project.find_delta]; its two debug messages are left out. *)
Definition find_delta p (lib : Binary.t) : Z :=
  let min_addr_bin := Binary.min_addr lib in
  let max_addr_bin := Binary.max_addr lib in
  let start_offset := min_addr_bin mod granularity in
  let new_start_bin :=
    granularity * ((max_addr p + granularity) / granularity) + start_offset in
  let delta := new_start_bin - min_addr_bin in
  delta.

End Loader.

(** ** What the code can raise, and what it logs *)

Inductive exn :=
  | KeyError
  | StructError
  | SimIRSBError
  | AngrException
  | OtherError.

(** The outcome of running a loop of the program with a bound on the
    number of its iterations. *)
Inductive run (A : Type) :=
  | Returned (a : A)
  | Raised (e : exn)
  | OutOfFuel.
Arguments Returned {A}.
Arguments Raised {A}.
Arguments OutOfFuel {A}.

(** The messages sent to the logger [l] by [load_libs], by the two
    resolvers and by the loop of [make_refs]: one constructor per call
    site, with the values that the message is formatted from. *)
Inductive log_event :=
  | LoadingLib (lib : string)
  | RebasingLib (lib : string) (delta : Z)
  | LibNotLoaded (lib_name : string)
  | UnableToGetAddress (export export_type lib_name : string)
  | ResolvingImport (imp bin : string) (addr : Z)
  | UnableToResolveImport (imp bin : string)
  | AbstractProcLib (lib_name : string)
  | AbstractProcImport (imp : string)
  | AbstractProcFound (imp : string)
  | Analyzing (a : Z)
  | SomethingWrong (a : Z)
  | SkippingSymbolic
  | SkippingSymbolicAt (inst_addr : Z)
  | MemoryRead (val_from val_to : Z)
  | MemoryWrite (val_from val_to : Z)
  | CodeRef (val_from val_to : Z)
  | MemoryRef (val_from val_to : Z)
  | AddingToCode (val_to : Z)
  | NotInPerms (val_to : Z)
  | NotCode (val_to : Z).

(** ** Loading the libraries *)

(** The state of the loop of [load_libs]: the project, the two local
    sets, and the log. *)
Record loader {SimProcedure : Type} := mkLoader {
  project : Project SimProcedure;
  remaining_libs : gset string;
  done_libs : gset string;
  loader_log : list log_event
}.
Arguments loader : clear implicits.
Arguments mkLoader {SimProcedure}.

Section LoadLibs.
Context {SimProcedure : Type}.

(** [fs] is the search directory: the names [lib] for which
    [os.path.exists(os.path.join(self.dirname, lib))] holds, with the
    image that [Binary(lib_path, self.arch)] builds from the file.
    [pop] is the element that [set.pop()] removes from a non-empty
    set. *)
Variable fs : gmap string Binary.t.
Variable pop : gset string → string.

(** One iteration of [while len(remaining_libs) > 0]. The image stored
    in [self.binaries] is the object that [rebase] then shifts, so the
    entry of [binaries] is the rebased image. *)
Definition load_libs_body (st : loader SimProcedure) : loader SimProcedure :=
  let lib := pop (remaining_libs st) in
  let remaining := remaining_libs st ∖ {[ lib ]} in
  match (if bool_decide (lib ∉ done_libs st) then fs !! lib else None) with
  | Some new_lib =>
      let log := loader_log st ++ [LoadingLib lib] in
      let done := done_libs st ∪ {[ lib ]} in
      let p := set_binary lib new_lib (project st) in
      let delta := find_delta p new_lib in
      let log := log ++ [RebasingLib lib delta] in
      let new_lib := Binary.rebase delta new_lib in
      let p := set_binary lib new_lib p in
      let p := set_envelope (Z.min (min_addr p) (Binary.min_addr new_lib))
                            (Z.max (max_addr p) (Binary.max_addr new_lib)) p in
      mkLoader p (remaining ∪ list_to_set (Binary.get_lib_names new_lib))
               done log
  | None => mkLoader (project st) remaining (done_libs st) (loader_log st)
  end.

Fixpoint load_libs_loop (fuel : nat) (st : loader SimProcedure)
  : run (loader SimProcedure) :=
  if bool_decide (remaining_libs st = ∅) then Returned st
  else match fuel with
       | O => OutOfFuel
       | S fuel => load_libs_loop fuel (load_libs_body st)
       end.

(** [Project.load_libs]; [self.binaries[self.filename]] raises
    [KeyError] when the main image is not registered. *)
Definition load_libs (fuel : nat) (p : Project SimProcedure)
  : run (loader SimProcedure) :=
  match binaries p !! filename p with
  | None => Raised KeyError
  | Some main =>
      load_libs_loop fuel
        (mkLoader p (list_to_set (Binary.get_lib_names main)) ∅ [])
  end.

End LoadLibs.

(** The names that [load_libs] has loaded, in order: one message
    [LoadingLib] is logged for each. *)
Definition loaded (log : list log_event) : list string :=
  omap (λ e, match e with LoadingLib lib => Some lib | _ => None end) log.

(** The images that [load_libs] has placed, in order, with the names
    they are registered under: one message [RebasingLib] is logged for
    each, with the delta that the image of the file is rebased by. *)
Definition placed (fs : gmap string Binary.t) (log : list log_event)
    : list (string * Binary.t) :=
  omap (λ e, match e with
             | RebasingLib lib delta =>
                 (λ b, (lib, Binary.rebase delta b)) <$> fs !! lib
             | _ => None
             end) log.

(** [self.max_addr] once the images [imgs] were placed, from [m0]. *)
Definition envelope_max (m0 : Z) (imgs : list Binary.t) : Z :=
  foldl (λ m b, Z.max m (Binary.max_addr b)) m0 imgs.

(** The libraries that the image [main] refers to, directly or through
    the libraries found in the directory [fs]. *)
Inductive referenced (fs : gmap string Binary.t) (main : Binary.t)
  : string → Prop :=
  | referenced_main lib :
      lib ∈ Binary.get_lib_names main → referenced fs main lib
  | referenced_lib lib b lib' :
      referenced fs main lib → fs !! lib = Some b →
      lib' ∈ Binary.get_lib_names b → referenced fs main lib'.

(** What the loop of [load_libs] keeps, for the libraries: the loaded
    ones are the done ones, each loaded once, referenced and found in
    the directory; what remains is referenced; and what the main image
    and the done libraries name remains, or is done, or is not in the
    directory. *)
Definition loading {SimProcedure : Type} (fs : gmap string Binary.t)
    (main : Binary.t) (st : loader SimProcedure) : Prop :=
  NoDup (loaded (loader_log st))
  ∧ (∀ x, x ∈ loaded (loader_log st) ↔ x ∈ done_libs st)
  ∧ (∀ x, x ∈ done_libs st → referenced fs main x ∧ is_Some (fs !! x))
  ∧ (∀ x, x ∈ remaining_libs st → referenced fs main x)
  ∧ (∀ x, x ∈ Binary.get_lib_names main →
          x ∈ remaining_libs st ∨ x ∈ done_libs st ∨ fs !! x = None)
  ∧ (∀ m b x, m ∈ done_libs st → fs !! m = Some b →
              x ∈ Binary.get_lib_names b →
              x ∈ remaining_libs st ∨ x ∈ done_libs st ∨ fs !! x = None).

(** What the loop of [load_libs] keeps, for the placement: the placed
    images are registered under the names of done libraries, the
    envelope ends at the greatest of their ends, and each was put at the
    start that [find_delta] computes from the envelope of the images
    placed before. *)
Definition placing {SimProcedure : Type} (fs : gmap string Binary.t)
    (m0 : Z) (st : loader SimProcedure) : Prop :=
  let imgs := placed fs (loader_log st) in
  (∀ lib B, (lib, B) ∈ imgs →
            lib ∈ done_libs st ∧ binaries (project st) !! lib = Some B)
  ∧ max_addr (project st) = envelope_max m0 imgs.*2
  ∧ (∀ j lib B, imgs !! j = Some (lib, B) →
       ∃ orig, fs !! lib = Some orig
               ∧ Binary.min_addr B
                 = granularity
                   * ((envelope_max m0 (take j imgs).*2 + granularity)
                      / granularity)
                   + Binary.min_addr orig mod granularity).

(** ** Sequencing of calls that may raise *)

Definition run_bind {A B : Type} (f : A → run B) (m : run A) : run B :=
  match m with
  | Returned a => f a
  | Raised e => Raised e
  | OutOfFuel => OutOfFuel
  end.

#[global] Instance run_mret : MRet run := @Returned.
#[global] Instance run_mbind : MBind run := @run_bind.

(** [for x in l: s = body(s, x)], leaving the loop at the first
    exception. *)
Fixpoint for_each {A S : Type} (body : S → A → run S) (s : S) (l : list A)
  : run S :=
  match l with
  | [] => Returned s
  | x :: l => s ← body s x; for_each body s l
  end.

(** ** Resolving imports from the loaded libraries *)

Section ResolveFromLibs.
Context {SimProcedure : Type}.

(** [dict_values m] is the order in which [m.values()] enumerates the
    entries of the dictionary [m], given by their keys. *)
Variable dict_values : gmap string Binary.t → list string.

(** [for export, export_type in lib.get_exports(): try: ... except
    Exception: l.warning(...)] *)
Definition resolve_exports (lib_name : string) (lib : Binary.t)
    (acc : gmap string Z * list log_event) : gmap string Z * list log_event :=
  foldl (λ '(resolved, log) '(export, export_type),
           match Binary.get_symbol_addr lib export with
           | Some a => (<[export := a]> resolved, log)
           | None =>
               (resolved,
                log ++ [UnableToGetAddress export export_type lib_name])
           end)
        acc (Binary.get_exports lib).

(** [for lib_name in b.get_lib_names(): ...], from [resolved = { }] *)
Definition collect_resolved (bins : gmap string Binary.t) (b : Binary.t)
    (log : list log_event) : gmap string Z * list log_event :=
  foldl (λ '(resolved, log) lib_name,
           match bins !! lib_name with
           | None => (resolved, log ++ [LibNotLoaded lib_name])
           | Some lib => resolve_exports lib_name lib (resolved, log)
           end)
        (∅, log) (Binary.get_lib_names b).

(** [for imp,_ in b.get_imports(): ...] *)
Definition patch_imports (resolved : gmap string Z) (b : Binary.t)
    (log : list log_event) : Binary.t * list log_event :=
  foldl (λ '(b, log) '(imp, _),
           match resolved !! imp with
           | Some a =>
               (Binary.resolve_import imp a b,
                log ++ [ResolvingImport imp (Binary.filename b) a])
           | None =>
               (b, log ++ [UnableToResolveImport imp (Binary.filename b)])
           end)
        (b, log) (Binary.get_imports b).

(** One iteration of [for b in self.binaries.values()], for the image
    registered under [name]; the patched image is the object that
    [self.binaries] holds. *)
Definition resolve_imports_of (name : string)
    (acc : gmap string Binary.t * list log_event)
    : gmap string Binary.t * list log_event :=
  let '(bins, log) := acc in
  match bins !! name with
  | None => acc
  | Some b =>
      let '(resolved, log) := collect_resolved bins b log in
      let '(b, log) := patch_imports resolved b log in
      (<[name := b]> bins, log)
  end.

(** [Project.resolve_imports_from_libs] *)
Definition resolve_imports_from_libs (p : Project SimProcedure)
    : Project SimProcedure * list log_event :=
  let '(bins, log) :=
    foldl (λ acc name, resolve_imports_of name acc)
          (binaries p, []) (dict_values (binaries p)) in
  (mkProject bins (filename p) (min_addr p) (max_addr p) (entry p)
             (sim_procedures p), log).

End ResolveFromLibs.

(** Two images with the same tables: they differ at most in the slots of
    their imports, their bytes and their range. *)
Definition same_tables (b b' : Binary.t) : Prop :=
  Binary.filename b = Binary.filename b'
  ∧ Binary.get_lib_names b = Binary.get_lib_names b'
  ∧ Binary.get_exports b = Binary.get_exports b'
  ∧ Binary.symbol_addrs b = Binary.symbol_addrs b'
  ∧ Binary.get_imports b = Binary.get_imports b'.

(** The image [b] names a library that is loaded and that exports
    [name], and the lookup of the address of that export gives [a]. *)
Definition exports_to (bins : gmap string Binary.t) (b : Binary.t)
    (name : string) (a : Z) : Prop :=
  ∃ lib_name lib export_type,
    lib_name ∈ Binary.get_lib_names b
    ∧ bins !! lib_name = Some lib
    ∧ (name, export_type) ∈ Binary.get_exports lib
    ∧ Binary.get_symbol_addr lib name = Some a.

(** The image [b] names the loaded library [lib_name], which exports
    [export] with a failing lookup of its address. *)
Definition export_fails (bins : gmap string Binary.t) (b : Binary.t)
    (export export_type lib_name : string) : Prop :=
  lib_name ∈ Binary.get_lib_names b
  ∧ ∃ lib, bins !! lib_name = Some lib
           ∧ (export, export_type) ∈ Binary.get_exports lib
           ∧ Binary.get_symbol_addr lib export = None.

(** The images of [bins] have the tables of those of [bins0]. *)
Definition tables_agree (bins0 bins : gmap string Binary.t) : Prop :=
  ∀ n, match bins0 !! n, bins !! n with
       | Some b0, Some b => same_tables b0 b
       | None, None => True
       | _, _ => False
       end.

(** What resolution has done for the image [b0], now [b], once its
    imports were gone through: an import that some export matches holds
    the address of a matching export, an import that none matches has its
    warning, and so has every export whose lookup failed. *)
Definition imports_settled (bins0 : gmap string Binary.t) (b0 b : Binary.t)
    (log : list log_event) : Prop :=
  (∀ x, x ∈ (Binary.get_imports b0).*1 →
        ((∃ a, exports_to bins0 b0 x a) →
         ∃ a, Binary.resolved_imports b !! x = Some a ∧ exports_to bins0 b0 x a)
        ∧ ((∀ a, ¬ exports_to bins0 b0 x a) →
           UnableToResolveImport x (Binary.filename b0) ∈ log))
  ∧ (∀ e ty ln, export_fails bins0 b0 e ty ln →
                UnableToGetAddress e ty ln ∈ log).

(** Whether or not the imports of [b0] were gone through: a slot holds
    what it held, or the address of a matching export. *)
Definition slots_sound (bins0 : gmap string Binary.t) (b0 b : Binary.t) : Prop :=
  ∀ x, Binary.resolved_imports b !! x = Binary.resolved_imports b0 !! x
       ∨ ∃ a, Binary.resolved_imports b !! x = Some a ∧ exports_to bins0 b0 x a.

(** The state of the loop of [resolve_imports_from_libs] once the names
    [seen] were gone through. *)
Definition resolving (bins0 : gmap string Binary.t) (seen : list string)
    (acc : gmap string Binary.t * list log_event) : Prop :=
  ∀ n, match bins0 !! n with
       | None => acc.1 !! n = None
       | Some b0 =>
           ∃ b, acc.1 !! n = Some b
                ∧ same_tables b0 b
                ∧ slots_sound bins0 b0 b
                ∧ (n ∈ seen → imports_settled bins0 b0 b acc.2)
       end.

(** ** Resolving imports with SimProcedures *)

(** [struct.unpack("<Q", s)[0]]: the eight bytes of [s] as an unsigned
    little-endian integer; [struct.error] for any other length. *)
Definition little_endian (bs : list byte) : Z :=
  foldr (λ b acc, Z.of_N (Byte.to_N b) + 256 * acc) 0 bs.

Definition struct_unpack_Q (bs : list byte) : run Z :=
  if bool_decide (length bs = 8%nat) then Returned (little_endian bs)
  else Raised StructError.

Section UseSimProcedures.
Context {SimProcedure : Type}.

(** [md5_digest s] is [m.digest()] after [m = md5.md5(); m.update(s)].
    [SimProcedures] is the table [simuvex.procedures.SimProcedures]. *)
Variable md5_digest : string → list byte.
Variable SimProcedures : gmap string (gmap string SimProcedure).

(** [for n, p in enumerate(hashed_bytes): binary.ida.mem[addr + n] = p] *)
Definition write_bytes (hashed_bytes : list byte) (b : Binary.t) (addr : Z)
    : Binary.t :=
  foldl (λ b '(n, p), Binary.set_mem (addr + n) p b) b
        (zip (seqZ 0 (Z.of_nat (length hashed_bytes))) hashed_bytes).

(** [Project.set_sim_procedure]; [binary] is the key under which
    [self.binaries] holds the image that is passed. The [print] of the
    table is left out. *)
Definition set_sim_procedure (p : Project SimProcedure) (binary : string)
    (lib func_name : string) (sim_proc : SimProcedure)
    : run (Project SimProcedure) :=
  match binaries p !! binary with
  | None => Raised KeyError
  | Some b =>
      let plt_addrs := Binary.get_import_addrs b func_name in
      let hashed_bytes := take 8 (md5_digest (lib ++ "_" ++ func_name)) in
      pseudo_addr ← struct_unpack_Q hashed_bytes;
      let procs := <[pseudo_addr := sim_proc]> (sim_procedures p) in
      let b := foldl (write_bytes hashed_bytes) b plt_addrs in
      mret (mkProject (<[binary := b]> (binaries p)) (filename p)
                      (min_addr p) (max_addr p) (entry p) procs)
  end.

(** [Project.resolve_imports_using_sim_procedures] *)
Definition resolve_imports_using_sim_procedures (p : Project SimProcedure)
    : run (Project SimProcedure * list log_event) :=
  let binary_name := filename p in
  match binaries p !! binary_name with
  | None => Raised KeyError
  | Some binary =>
      for_each (λ '(p, log) lib_name,
          let log := log ++ [AbstractProcLib lib_name] in
          match SimProcedures !! lib_name with
          | None => mret (p, log)
          | Some functions =>
              for_each (λ '(p, log) '(imp, _),
                  let log := log ++ [AbstractProcImport imp] in
                  match functions !! imp with
                  | None => mret (p, log)
                  | Some sim_proc =>
                      let log := log ++ [AbstractProcFound imp] in
                      p ← set_sim_procedure p binary_name lib_name imp sim_proc;
                      mret (p, log)
                  end)
                (p, log) (Binary.get_imports binary)
          end)
        (p, []) (Binary.get_lib_names binary)
  end.

(** The stub [sim_proc] stands under [k] for an import of the main
    image [main] from one of the libraries that it names. *)
Definition stub_of_main (main : Binary.t) (k : Z) (sim_proc : SimProcedure)
    : Prop :=
  ∃ lib imp sites functions,
    lib ∈ Binary.get_lib_names main
    ∧ (imp, sites) ∈ Binary.get_imports main
    ∧ SimProcedures !! lib = Some functions
    ∧ functions !! imp = Some sim_proc
    ∧ struct_unpack_Q (take 8 (md5_digest (lib ++ "_" ++ imp))) = Returned k.

End UseSimProcedures.

(** ** The library function [md5] (RFC 1321)

    [md5.md5] belongs to Python's standard library; this is the digest it
    computes, on 32-bit words held in [Z]. *)

Module MD5.

Definition wrap (x : Z) : Z := x mod 2 ^ 32.

Definition rotl (x c : Z) : Z :=
  Z.lor (wrap (Z.shiftl x c)) (Z.shiftr x (32 - c)).

Definition not32 (x : Z) : Z := Z.lxor x 0xffffffff.

(** The per-round shift amounts. *)
Definition s : list Z :=
  [7; 12; 17; 22; 7; 12; 17; 22; 7; 12; 17; 22; 7; 12; 17; 22;
   5; 9; 14; 20; 5; 9; 14; 20; 5; 9; 14; 20; 5; 9; 14; 20;
   4; 11; 16; 23; 4; 11; 16; 23; 4; 11; 16; 23; 4; 11; 16; 23;
   6; 10; 15; 21; 6; 10; 15; 21; 6; 10; 15; 21; 6; 10; 15; 21].

(** [K i = floor (2^32 * abs (sin (i + 1)))] *)
Definition K : list Z :=
  [0xd76aa478; 0xe8c7b756; 0x242070db; 0xc1bdceee;
   0xf57c0faf; 0x4787c62a; 0xa8304613; 0xfd469501;
   0x698098d8; 0x8b44f7af; 0xffff5bb1; 0x895cd7be;
   0x6b901122; 0xfd987193; 0xa679438e; 0x49b40821;
   0xf61e2562; 0xc040b340; 0x265e5a51; 0xe9b6c7aa;
   0xd62f105d; 0x02441453; 0xd8a1e681; 0xe7d3fbc8;
   0x21e1cde6; 0xc33707d6; 0xf4d50d87; 0x455a14ed;
   0xa9e3e905; 0xfcefa3f8; 0x676f02d9; 0x8d2a4c8a;
   0xfffa3942; 0x8771f681; 0x6d9d6122; 0xfde5380c;
   0xa4beea44; 0x4bdecfa9; 0xf6bb4b60; 0xbebfbc70;
   0x289b7ec6; 0xeaa127fa; 0xd4ef3085; 0x04881d05;
   0xd9d4d039; 0xe6db99e5; 0x1fa27cf8; 0xc4ac5665;
   0xf4292244; 0x432aff97; 0xab9423a7; 0xfc93a039;
   0x655b59c3; 0x8f0ccc92; 0xffeff47d; 0x85845dd1;
   0x6fa87e4f; 0xfe2ce6e0; 0xa3014314; 0x4e0811a1;
   0xf7537e82; 0xbd3af235; 0x2ad7d2bb; 0xeb86d391].

Definition byte_of_Z (z : Z) : byte :=
  default x00 (Byte.of_N (Z.to_N (z mod 256))).

Definition Z_of_byte (b : byte) : Z := Z.of_N (Byte.to_N b).

(** A word as four bytes, least significant first, and back. *)
Definition bytes_of_word (w : Z) : list byte :=
  [byte_of_Z w; byte_of_Z (Z.shiftr w 8); byte_of_Z (Z.shiftr w 16);
   byte_of_Z (Z.shiftr w 24)].

Definition word_at (bs : list Z) (i : nat) : Z :=
  bs !!! (4 * i)%nat + 256 * bs !!! (4 * i + 1)%nat
  + 65536 * bs !!! (4 * i + 2)%nat + 16777216 * bs !!! (4 * i + 3)%nat.

(** Padding: a [0x80] byte, zeros up to 56 modulo 64, then the length
    of the message in bits on eight bytes. *)
Definition pad (msg : list Z) : list Z :=
  let len := length msg in
  let zeros := ((55 + 64 - len mod 64) mod 64)%nat in
  let bits := 8 * Z.of_nat len in
  msg ++ [0x80] ++ replicate zeros 0
      ++ ((λ k, Z.shiftr bits (8 * k) mod 256) <$> seqZ 0 8).

Definition state : Type := Z * Z * Z * Z.

Definition round (M : list Z) (st : state) (i : nat) : state :=
  let '(A, B, C, D) := st in
  let '(F, g) :=
    if bool_decide (i < 16)%nat then
      (Z.lor (Z.land B C) (Z.land (not32 B) D), i)
    else if bool_decide (i < 32)%nat then
      (Z.lor (Z.land D B) (Z.land (not32 D) C), ((5 * i + 1) mod 16)%nat)
    else if bool_decide (i < 48)%nat then
      (Z.lxor (Z.lxor B C) D, ((3 * i + 5) mod 16)%nat)
    else
      (Z.lxor C (Z.lor B (not32 D)), ((7 * i) mod 16)%nat) in
  let F := wrap (F + A + K !!! i + M !!! g) in
  (D, wrap (B + rotl F (s !!! i)), B, C).

Definition block (bs : list Z) (st : state) (k : nat) : state :=
  let chunk := take 64 (drop (64 * k) bs) in
  let M := word_at chunk <$> seq 0 16 in
  let '(a0, b0, c0, d0) := st in
  let '(A, B, C, D) := foldl (round M) st (seq 0 64) in
  (wrap (a0 + A), wrap (b0 + B), wrap (c0 + C), wrap (d0 + D)).

Definition digest (msg : string) : list byte :=
  let bs := pad ((λ c, Z.of_N (Ascii.N_of_ascii c))
                   <$> String.list_ascii_of_string msg) in
  let '(a0, b0, c0, d0) :=
    foldl (block bs) (0x67452301, 0xefcdab89, 0x98badcfe, 0x10325476)
          (seq 0 (length bs / 64)) in
  bytes_of_word a0 ++ bytes_of_word b0 ++ bytes_of_word c0
    ++ bytes_of_word d0.

End MD5.

(** ** The reference crawler *)

(** [r.addr]: symbolic, or a value that [r.addr.any()] returns. *)
Inductive sym_value :=
  | Symbolic
  | Concrete (v : Z).

Module SimRef.
(** A reference reported by a block: [r.addr], [r.inst_addr] and
    [r.size] (in bits). *)
Record t := mk {
  addr : sym_value;
  inst_addr : Z;
  size : Z
}.
End SimRef.

Module SimIRSB.
(** What [make_refs] reads of the block [s] that [sim_block] returns:
    [s.refs()[simuvex.SimMemRead]], [... SimMemWrite], [... SimCodeRef],
    [... SimMemRef] and [s.state]. *)
Record t {State : Type} := mk {
  mem_reads : list SimRef.t;
  mem_writes : list SimRef.t;
  code_refs : list SimRef.t;
  mem_refs : list SimRef.t;
  state : State
}.
Arguments t : clear implicits.
Arguments mk {State}.
End SimIRSB.

(** The eight dictionaries, by name. *)
Inductive table :=
  | data_reads_to
  | data_reads_from
  | data_writes_to
  | data_writes_from
  | code_refs_to
  | code_refs_from
  | memory_refs_from
  | memory_refs_to.

#[global] Instance table_eq_dec : EqDecision table.
Proof. solve_decision. Defined.

(** What the lists of the dictionaries hold: an address, or a pair of an
    address and a size. *)
Inductive item :=
  | Addr (a : Z)
  | AddrSize (a sz : Z).

#[global] Instance item_eq_dec : EqDecision item.
Proof. solve_decision. Defined.

Definition tables : Type := table → gmap Z (list item).

(** [d = collections.defaultdict(list)], for each of the eight *)
Definition no_tables : tables := λ _, ∅.

(** [d[k].append(v)] on the dictionary [d] of the family [T] *)
Definition append_to (d : table) (k : Z) (v : item) (T : tables) : tables :=
  λ d', if decide (d' = d) then <[k := T d !!! k ++ [v]]> (T d) else T d'.

(** The local variables of [make_refs] that its loop updates. The stack
    [remaining_addrs] has its last element first. *)
Record crawl {State : Type} := mkCrawl {
  sim_blocks : gset Z;
  remaining_addrs : list (Z * State);
  refs : tables;
  crawl_log : list log_event
}.
Arguments crawl : clear implicits.
Arguments mkCrawl {State}.

Section MakeRefs.
Context {State : Type}.

(** [sim_block a st] is [self.sim_block(a, state=st, mode="static")]:
    the block, or the exception that the call raises. [perm] is
    [self.perm] once pulled: the permission flags of the addresses that
    have some. *)
Variable sim_block : Z → State → exn + SimIRSB.t State.
Variable perm : gmap Z Z.

Definition log_msg (e : log_event) (c : crawl State) : crawl State :=
  mkCrawl (sim_blocks c) (remaining_addrs c) (refs c) (crawl_log c ++ [e]).

Definition record (d : table) (k : Z) (v : item) (c : crawl State)
    : crawl State :=
  mkCrawl (sim_blocks c) (remaining_addrs c) (append_to d k v (refs c))
          (crawl_log c).

(** [remaining_addrs.append((val_to, s.state)); sim_blocks.add(val_to)] *)
Definition enqueue (val_to : Z) (st : State) (c : crawl State) : crawl State :=
  mkCrawl (sim_blocks c ∪ {[ val_to ]}) ((val_to, st) :: remaining_addrs c)
          (refs c) (crawl_log c).

(** The body of [for r in s.refs()[simuvex.SimMemRead]] *)
Definition track_read (c : crawl State) (r : SimRef.t) : crawl State :=
  match SimRef.addr r with
  | Symbolic => log_msg SkippingSymbolic c
  | Concrete val_to =>
      let val_from := SimRef.inst_addr r in
      let c := log_msg (MemoryRead val_from val_to) c in
      let c := record data_reads_from val_from
                      (AddrSize val_to (SimRef.size r / 8)) c in
      foldl (λ c i, record data_reads_to i (Addr val_from) c) c
            (seqZ val_to (SimRef.size r / 8))
  end.

(** The body of [for r in s.refs()[simuvex.SimMemWrite]] *)
Definition track_write (c : crawl State) (r : SimRef.t) : crawl State :=
  match SimRef.addr r with
  | Symbolic => log_msg SkippingSymbolic c
  | Concrete val_to =>
      let val_from := SimRef.inst_addr r in
      let c := log_msg (MemoryWrite val_from val_to) c in
      let c := record data_writes_to val_to
                      (AddrSize val_from (SimRef.size r / 8)) c in
      foldl (λ c i, record data_writes_to i (Addr val_from) c) c
            (seqZ val_to (SimRef.size r / 8))
  end.

(** The body of [for r in s.refs()[simuvex.SimCodeRef]] *)
Definition track_code_ref (st : State) (c : crawl State) (r : SimRef.t)
    : crawl State :=
  match SimRef.addr r with
  | Symbolic => log_msg (SkippingSymbolicAt (SimRef.inst_addr r)) c
  | Concrete val_to =>
      let val_from := SimRef.inst_addr r in
      let c := log_msg (CodeRef val_from val_to) c in
      let c := record code_refs_to val_to (Addr val_from) c in
      let c := record code_refs_from val_from (Addr val_to) c in
      if bool_decide (val_to ∉ sim_blocks c) then enqueue val_to st c
      else c
  end.

(** [self.perm[val_to] & 1], as a condition *)
Definition executable (flags : Z) : bool := negb (Z.land flags 1 =? 0).

(** The body of [for r in s.refs()[simuvex.SimMemRef]] *)
Definition track_memory_ref (st : State) (c : crawl State) (r : SimRef.t)
    : crawl State :=
  match SimRef.addr r with
  | Symbolic => log_msg SkippingSymbolic c
  | Concrete val_to =>
      let val_from := SimRef.inst_addr r in
      let c := log_msg (MemoryRef val_from val_to) c in
      let c := record memory_refs_to val_to (Addr val_from) c in
      let c := record memory_refs_from val_from (Addr val_to) c in
      if bool_decide (val_to ∉ sim_blocks c)
         && bool_decide (val_to ∈ dom perm)
         && from_option executable false (perm !! val_to)
      then enqueue val_to st (log_msg (AddingToCode val_to) c)
      else if bool_decide (val_to ∉ dom perm)
      then log_msg (NotInPerms val_to) c
      else log_msg (NotCode val_to) c
  end.

(** The block [s] was built: the rest of the body of the [while]. *)
Definition track_block (a : Z) (s : SimIRSB.t State) (c : crawl State)
    : crawl State :=
  let c := mkCrawl (sim_blocks c ∪ {[ a ]}) (remaining_addrs c) (refs c)
                   (crawl_log c) in
  let c := foldl track_read c (SimIRSB.mem_reads s) in
  let c := foldl track_write c (SimIRSB.mem_writes s) in
  let c := foldl (track_code_ref (SimIRSB.state s)) c (SimIRSB.code_refs s) in
  foldl (track_memory_ref (SimIRSB.state s)) c (SimIRSB.mem_refs s).

(** One iteration of [while len(remaining_addrs) > 0], with
    [(a, initial_state)] popped and [c] the rest. *)
Definition analyze (a : Z) (initial_state : State) (c : crawl State)
    : run (crawl State) :=
  let c := log_msg (Analyzing a) c in
  match sim_block a initial_state with
  | inl SimIRSBError | inl AngrException =>
      Returned (log_msg (SomethingWrong a) c)
  | inl e => Raised e
  | inr s => Returned (track_block a s c)
  end.

Fixpoint make_refs_loop (fuel : nat) (c : crawl State) : run (crawl State) :=
  match remaining_addrs c with
  | [] => Returned c
  | (a, initial_state) :: rest =>
      match fuel with
      | O => OutOfFuel
      | S fuel =>
          c ← analyze a initial_state
                (mkCrawl (sim_blocks c) rest (refs c) (crawl_log c));
          make_refs_loop fuel c
      end
  end.

(** [Project.make_refs]: [entry] is [self.entry] and [loaded_state] is
    [loaded_state.copy_after()]. The result holds the eight
    dictionaries and [static_block_addrs]. *)
Definition make_refs (fuel : nat) (entry : Z) (loaded_state : State)
    : run (crawl State) :=
  make_refs_loop fuel (mkCrawl ∅ [(entry, loaded_state)] no_tables []).

(** The target [t] is not in [sim_blocks], has permission flags, and
    bit 0 of the flags, the executable one, is set. *)
Definition queueable (c : crawl State) (t : Z) : Prop :=
  (t ∉ sim_blocks c)
  ∧ (∃ flags, perm !! t = Some flags ∧ Z.testbit flags 0 = true).

(** The state of [make_refs] after [n] iterations of its loop, or when
    the loop ends if that is earlier: what a crawl has done so far,
    whether or not it ever ends. *)
Fixpoint make_refs_iter (n : nat) (c : crawl State) : run (crawl State) :=
  match n, remaining_addrs c with
  | S n, (a, initial_state) :: rest =>
      c ← analyze a initial_state
            (mkCrawl (sim_blocks c) rest (refs c) (crawl_log c));
      make_refs_iter n c
  | _, _ => Returned c
  end.

Definition make_refs_prefix (n : nat) (entry : Z) (loaded_state : State)
    : run (crawl State) :=
  make_refs_iter n (mkCrawl ∅ [(entry, loaded_state)] no_tables []).

(** The addresses that [sim_block] was called on, in order: one message
    [Analyzing] is logged before each call. *)
Definition analyzed (log : list log_event) : list Z :=
  omap (λ e, match e with Analyzing a => Some a | _ => None end) log.

(** What bounds the iterations that remain, when the targets of the
    code references lie in [U]: the addresses of [U] that are not
    discovered, and those that wait. *)
Definition crawl_measure (U : gset Z) (c : crawl State) : nat :=
  (size (U ∖ sim_blocks c) + length (remaining_addrs c))%nat.

(** The addresses that were analyzed, followed by those that wait in the
    worklist. *)
Definition visited (c : crawl State) : list Z :=
  analyzed (crawl_log c) ++ (remaining_addrs c).*1.

(** The analyzed and the waiting addresses are distinct and
    discovered. *)
Definition tidy (c : crawl State) : Prop :=
  NoDup (visited c) ∧ ∀ a, a ∈ visited c → a ∈ sim_blocks c.

(** [c'] has the discovered set, the worklist and the analyzed addresses
    of [c]. *)
Definition same_worklist (c c' : crawl State) : Prop :=
  sim_blocks c' = sim_blocks c
  ∧ remaining_addrs c' = remaining_addrs c
  ∧ analyzed (crawl_log c') = analyzed (crawl_log c).

(** What the loop keeps: the analyzed and the waiting addresses are
    distinct, and they are discovered, but for the entry before it is
    analyzed with success. *)
Definition crawling (c : crawl State) : Prop :=
  NoDup (visited c)
  ∧ ((∀ a, a ∈ visited c → a ∈ sim_blocks c) ∨ (length (visited c) ≤ 1)%nat).

End MakeRefs.


(** ** The pseudo-address, as the specification words it *)

#[global] Instance byte_inhabited : Inhabited byte := populate x00.

(** The first eight bytes [b0 ... b7] of the digest of
    [library + "_" + function], read as the unsigned little-endian
    integer [b0 + b1 * 2^8 + ... + b7 * 2^56]. *)
Definition pseudo_address (md5_digest : string → list byte)
    (lib func_name : string) : Z :=
  let d := md5_digest (lib ++ "_" ++ func_name)%string in
  foldr Z.add 0
        ((λ k : nat, Z.of_N (Byte.to_N (d !!! k)) * 2 ^ (8 * Z.of_nat k))
           <$> seq 0 8).

(** ** Concrete programs *)

(** A block at [0x1000] with one read of 32 bits at [0x3000] and one
    write of 32 bits at [0x2000], both by the instruction at [0x1000];
    no block anywhere else. *)
Definition read_write_block : SimIRSB.t unit :=
  SimIRSB.mk [SimRef.mk (Concrete 0x3000) 0x1000 32]
             [SimRef.mk (Concrete 0x2000) 0x1000 32] [] [] tt.

Definition read_write_program (a : Z) (_ : unit) : exn + SimIRSB.t unit :=
  if bool_decide (a = 0x1000) then inr read_write_block
  else inl AngrException.

(** A main image ["a.out"] that depends on ["libc.so.6"] and
    ["libfoo.so"] and imports [printf] (patched at [0x601018]) and
    [foo]; ["libfoo.so"] is loaded and imports [printf] too (patched at
    [0x2001018]); ["libc.so.6"] is not loaded. *)
Definition a_out : Binary.t :=
  Binary.mk "a.out" 0x400000 0x601fff 0x400400 ["libc.so.6"; "libfoo.so"]
            [] ∅ [("printf", [0x601018]); ("foo", [0x601020])] ∅ ∅.

Definition libfoo : Binary.t :=
  Binary.mk "libfoo.so" 0x2000000 0x2001fff 0 ["libc.so.6"]
            [("foo", "FUNC"); ("bar", "FUNC"); ("baz", "OBJECT")]
            {[ "foo" := 0x2000500; "baz" := 0x2001800 ]}
            [("printf", [0x2001018])] ∅ ∅.

Definition two_images : Project string :=
  mkProject {[ "a.out" := a_out; "libfoo.so" := libfoo ]} "a.out"
            0x400000 0x2001fff 0x400400 ∅.

(** The stubs that the library of procedures offers for ["libc.so.6"]. *)
Definition libc_stubs : gmap string (gmap string string) :=
  {[ "libc.so.6" := {[ "printf" := "SimPrintf"; "malloc" := "SimMalloc" ]} ]}.

(** A directory where the libraries name each other: ["prog"] names
    ["libA.so"] and ["libmissing.so"], ["libA.so"] names ["libB.so"],
    which names ["libA.so"] and ["libmissing.so"]; there is no file
    ["libmissing.so"]. As loaded, ["libA.so"] spans
    [0 .. 0x17fffff] and ["libB.so"] spans [0 .. 0xfff]. *)
Definition prog : Binary.t :=
  Binary.mk "prog" 0x400000 0x400fff 0x400100 ["libA.so"; "libmissing.so"]
            [] ∅ [] ∅ ∅.

Definition libA : Binary.t :=
  Binary.mk "libA.so" 0 0x17fffff 0 ["libB.so"] [] ∅ [] ∅ ∅.

Definition libB : Binary.t :=
  Binary.mk "libB.so" 0 0xfff 0 ["libA.so"; "libmissing.so"] [] ∅ [] ∅ ∅.

Definition prog_dir : gmap string Binary.t :=
  {[ "libA.so" := libA; "libB.so" := libB ]}.

(** A [set.pop] that takes the first of the elements. *)
Definition first_element (s : gset string) : string :=
  default "" (head (elements s)).

(** The least multiple of [b] that is at least [a]: [b * ceil (a / b)]. *)
Definition round_up (a b : Z) : Z := b * - (- a / b).

(** A program with a loop: the block at [0x1000] jumps to itself and,
    twice, to [0x2000], and refers to [0x3000], [0x4000], [0x5000] and
    [0x2000]; the block at [0x3000] jumps back to [0x1000] and to
    [0x2000]; there are no bytes to lift anywhere else. Of the targets,
    [0x2000] and [0x3000] are executable, [0x4000] is readable and
    writable only, and [0x5000] has no permissions. *)
Definition loop_program (a : Z) (_ : unit) : exn + SimIRSB.t unit :=
  if bool_decide (a = 0x1000) then
    inr (SimIRSB.mk [] []
           [SimRef.mk (Concrete 0x1000) 0x1008 64;
            SimRef.mk (Concrete 0x2000) 0x1010 64;
            SimRef.mk (Concrete 0x2000) 0x1018 64]
           [SimRef.mk (Concrete 0x3000) 0x1000 64;
            SimRef.mk (Concrete 0x4000) 0x1002 64;
            SimRef.mk (Concrete 0x5000) 0x1004 64;
            SimRef.mk Symbolic 0x1005 64;
            SimRef.mk (Concrete 0x2000) 0x1006 64] tt)
  else if bool_decide (a = 0x3000) then
    inr (SimIRSB.mk [] []
           [SimRef.mk (Concrete 0x1000) 0x3004 64;
            SimRef.mk (Concrete 0x2000) 0x3008 64] [] tt)
  else inl AngrException.

Definition loop_perm : gmap Z Z :=
  {[ 0x2000 := 5; 0x3000 := 5; 0x4000 := 6 ]}.

(** The targets of its code references. *)
Definition loop_targets : gset Z := {[ 0x1000; 0x2000 ]}.

(** The permission view of the example of the specification: [0x2000]
    is executable, [0x3000] is not, [0x4000] has no flags. The state is
    one where [0x1000] alone is discovered. *)
Definition example_perm : gmap Z Z := {[ 0x2000 := 1; 0x3000 := 6 ]}.

Definition example_crawl : crawl unit := mkCrawl {[ 0x1000 ]} [] no_tables [].

(** The program of the end-to-end example of the specification: the
    block at [0x1000] jumps to [0x2000], whose block refers to
    nothing. *)
Definition jump_program (a : Z) (_ : unit) : exn + SimIRSB.t unit :=
  if bool_decide (a = 0x1000) then
    inr (SimIRSB.mk [] [] [SimRef.mk (Concrete 0x2000) 0x1000 64] [] tt)
  else if bool_decide (a = 0x2000) then inr (SimIRSB.mk [] [] [] [] tt)
  else inl AngrException.

(** ** Looking an image up by address *)

(** [for b in ...: if b.min_addr() <= addr <= b.max_addr(): return b],
    with [None] when the loop ends. *)
Fixpoint first_containing (addr : Z) (bs : list Binary.t) : option Binary.t :=
  match bs with
  | [] => None
  | b :: bs =>
      if bool_decide (Binary.min_addr b ≤ addr ≤ Binary.max_addr b)
      then Some b
      else first_containing addr bs
  end.

(** [Project.binary_by_addr]; [dict_values] gives the order in which
    [self.binaries.itervalues()] enumerates. *)
Definition binary_by_addr {SimProcedure : Type}
    (dict_values : gmap string Binary.t → list string)
    (p : Project SimProcedure) (addr : Z) : option Binary.t :=
  first_containing addr
    (omap (λ name, binaries p !! name) (dict_values (binaries p))).

(** ** Running a block or a stub *)

(** What [sim_run] returns: the stub class called on a state
    ([self.sim_procedures[hashed_addr](state)]), or the block that
    [sim_block] builds. *)
Inductive sim_run_result {SimProcedure State : Type} :=
  | RunProcedure (sim_proc : SimProcedure) (state : State)
  | RunBlock (s : SimIRSB.t State).
Arguments sim_run_result : clear implicits.

(** The first argument of [sim_run]: a [simuvex.SimExit], of which
    [concretize()] and [state] are read, or an address. *)
Inductive sim_where {State : Type} :=
  | WhereExit (concretize : Z) (state : State)
  | WhereAddr (addr : Z).
Arguments sim_where : clear implicits.

Section SimRun.
Context {SimProcedure State : Type}.
Implicit Type p : Project SimProcedure.

(** [arch_name] is [s.arch.name] of the state [new_state] that
    [simuvex.SimState(memory_backer=self.mem, arch=self.arch)
    .copy_after()] builds, and [set_stack_pointer s] is [s] after
    [s.store_reg(s.arch.sp_offset, 0xfffffffffff0000, 8)].
    [sim_block addr state] is [self.sim_block(addr, state, max_size,
    num_inst, options, mode)] for the optional arguments at hand. *)
Variable arch_name : string.
Variable new_state : State.
Variable set_stack_pointer : State → State.
Variable sim_block : Z → State → exn + SimIRSB.t State.

(** [Project.initial_state]; the exception raised for another
    architecture is a plain [Exception]. *)
Definition initial_state : run State :=
  if bool_decide (arch_name = "AMD64") then Returned (set_stack_pointer new_state)
  else Raised OtherError.

(** [Project.is_sim_procedure]; the [print] is left out. *)
Definition is_sim_procedure p (hashed_addr : Z) : bool :=
  bool_decide (hashed_addr ∈ dom (sim_procedures p)).

(** [Project.get_sim_procedure]: the class called on the state, or
    [None]. *)
Definition get_sim_procedure p (hashed_addr : Z) (state : State)
    : option (sim_run_result SimProcedure State) :=
  if bool_decide (hashed_addr ∈ dom (sim_procedures p)) then
    (λ sim_proc, RunProcedure sim_proc state) <$> sim_procedures p !! hashed_addr
  else None.

(** [Project.sim_run]; [state] is [None] when the caller leaves it
    out. A stub address yields what [get_sim_procedure] returns. *)
Definition sim_run p (where_ : sim_where State) (state : option State)
    : run (option (sim_run_result SimProcedure State)) :=
  '(addr, state) ←
     match where_ with
     | WhereExit concretize exit_state =>
         Returned (concretize, default exit_state state)
     | WhereAddr addr =>
         match state with
         | Some state => Returned (addr, state)
         | None => state ← initial_state; Returned (addr, state)
         end
     end;
  if is_sim_procedure p addr then Returned (get_sim_procedure p addr state)
  else match sim_block addr state with
       | inl e => Raised e
       | inr s => Returned (Some (RunBlock s))
       end.

End SimRun.

(** The image [b] with [slots] as the slots of its imports. *)
Definition with_slots (slots : gmap string Z) (b : Binary.t) : Binary.t :=
  Binary.mk (Binary.filename b) (Binary.min_addr b) (Binary.max_addr b)
            (Binary.entry b) (Binary.get_lib_names b) (Binary.get_exports b)
            (Binary.symbol_addrs b) (Binary.get_imports b) slots
            (Binary.ida_mem b).

(** The dictionary [resolved] that [resolve_imports_from_libs] builds for
    the image [b]. *)
Definition resolved_of (bins : gmap string Binary.t) (b : Binary.t)
    : gmap string Z :=
  (collect_resolved bins b []).1.

(** The image [b] with [mem] as its bytes. *)
Definition with_mem (mem : gmap Z byte) (b : Binary.t) : Binary.t :=
  Binary.mk (Binary.filename b) (Binary.min_addr b) (Binary.max_addr b)
            (Binary.entry b) (Binary.get_lib_names b) (Binary.get_exports b)
            (Binary.symbol_addrs b) (Binary.get_imports b)
            (Binary.resolved_imports b) mem.

(** The [len] bytes from [site] on hold the address [k]. *)
Definition covers (len site k : Z) : Prop := site ≤ k < site + len.
(** * Properties *)

(** ** The digest of the library *)

Example md5_empty : MD5.Z_of_byte <$> MD5.digest "" =
  [0xd4; 0x1d; 0x8c; 0xd9; 0x8f; 0x00; 0xb2; 0x04;
   0xe9; 0x80; 0x09; 0x98; 0xec; 0xf8; 0x42; 0x7e].
Proof. vm_compute. reflexivity. Qed.

Example md5_abc : MD5.Z_of_byte <$> MD5.digest "abc" =
  [0x90; 0x01; 0x50; 0x98; 0x3c; 0xd2; 0x4f; 0xb0;
   0xd6; 0x96; 0x3f; 0x7d; 0x28; 0xe1; 0x7f; 0x72].
Proof. vm_compute. reflexivity. Qed.

(** A message of seventy bytes, which pads to two blocks. *)
Example md5_two_blocks :
  MD5.Z_of_byte <$> MD5.digest
    "aaaaaaaaaaaaaaaaaaaaaaaaaaaaaaaaaaaaaaaaaaaaaaaaaaaaaaaaaaaaaaaaaaaaaa" =
  [0x0f; 0x5c; 0x6c; 0x4e; 0x74; 0x0b; 0xfc; 0xc0;
   0x8c; 0x3c; 0x26; 0xcc; 0xb2; 0x67; 0x3d; 0x46].
Proof. vm_compute. reflexivity. Qed.

Lemma md5_digest_length (msg : string) : length (MD5.digest msg) = 16%nat.
Proof.
  unfold MD5.digest.
  destruct (foldl _ _ _) as [[[a0 b0] c0] d0]. reflexivity.
Qed.

(** ** Rebasing *)

Section FindDelta.
Context {SimProcedure : Type}.
Implicit Type p : Project SimProcedure.

Lemma granularity_pos : 0 < granularity.
Proof. reflexivity. Qed.

(** The address at which [find_delta] puts the start of the image. *)
Lemma find_delta_new_start p lib :
  Binary.min_addr (Binary.rebase (find_delta p lib) lib) =
  granularity * ((max_addr p + granularity) / granularity)
  + Binary.min_addr lib mod granularity.
Proof. unfold find_delta. simpl. lia. Qed.

(** The image starts strictly above the envelope. *)
Lemma find_delta_above p lib :
  max_addr p < Binary.min_addr (Binary.rebase (find_delta p lib) lib).
Proof.
  rewrite find_delta_new_start.
  pose proof granularity_pos as Hg.
  pose proof (Z.mod_pos_bound (Binary.min_addr lib) granularity Hg).
  pose proof (Z.mod_pos_bound (max_addr p + granularity) granularity Hg).
  pose proof (Z.div_mod (max_addr p + granularity) granularity).
  lia.
Qed.

(** C7: the start of the rebased image is congruent, modulo the
    granularity, to the start of the image as it was loaded:
    [rebased_lo mod granularity = lo mod granularity]. *)
Theorem find_delta_preserves_offset p (lib : Binary.t) :
  Binary.min_addr (Binary.rebase (find_delta p lib) lib) mod granularity
  = Binary.min_addr lib mod granularity.
Proof.
  rewrite find_delta_new_start.
  rewrite Z.add_comm, Z.mul_comm, Z_mod_plus_full.
  apply Z.mod_mod. pose proof granularity_pos. lia.
Qed.

End FindDelta.

(** ** The dictionaries of the crawler *)

Lemma append_to_same d k v (T : tables) :
  append_to d k v T d !!! k = T d !!! k ++ [v].
Proof.
  unfold append_to. rewrite decide_True by done.
  apply lookup_total_insert_eq.
Qed.

Lemma append_to_same_ne d k k' v (T : tables) :
  k ≠ k' → append_to d k v T d !!! k' = T d !!! k'.
Proof.
  intros Hk. unfold append_to. rewrite decide_True by done.
  by apply lookup_total_insert_ne.
Qed.

Lemma append_to_other d d' k v (T : tables) :
  d' ≠ d → append_to d k v T d' = T d'.
Proof. intros Hd. unfold append_to. by rewrite decide_False. Qed.

Lemma executable_bit0 (flags : Z) : executable flags = Z.testbit flags 0.
Proof.
  unfold executable.
  change 1 with (Z.ones 1). rewrite Z.land_ones by lia.
  change (2 ^ 1) with 2. rewrite <- Z.bit0_mod.
  by destruct (Z.testbit flags 0).
Qed.

(** ** Memory references *)

Section MemoryRefs.
Context {State : Type}.
Variable perm : gmap Z Z.

Lemma queueable_cond (c : crawl State) (t : Z) :
  (bool_decide (t ∉ sim_blocks c) && bool_decide (t ∈ dom perm)
     && from_option executable false (perm !! t) = true)
  ↔ queueable perm c t.
Proof.
  unfold queueable. rewrite !andb_true_iff, !bool_decide_eq_true, elem_of_dom.
  split.
  - intros [[Hs [flags Hf]] Hx]. split; [done|]. exists flags.
    rewrite Hf in Hx. simpl in Hx. by rewrite <- executable_bit0.
  - intros [Hs (flags & Hf & Hx)]. rewrite Hf. simpl.
    rewrite executable_bit0. eauto.
Qed.


End MemoryRefs.

(** A reference from [0x1000] to [0x2000] queues [0x2000]; references to
    [0x3000], to [0x4000] and to the discovered [0x1000] queue nothing;
    all four are entered in [memory_refs_from]. *)
Example memory_ref_example :
  let ref_to t := SimRef.mk (Concrete t) 0x1000 64 in
  let after t := track_memory_ref example_perm tt example_crawl (ref_to t) in
  (remaining_addrs (after 0x2000)).*1 = [0x2000]
  ∧ remaining_addrs (after 0x3000) = []
  ∧ remaining_addrs (after 0x4000) = []
  ∧ remaining_addrs (after 0x1000) = []
  ∧ (λ t, refs (after t) memory_refs_from !! 0x1000)
      <$> [0x2000; 0x3000; 0x4000; 0x1000]
    = [Some [Addr 0x2000]; Some [Addr 0x3000]; Some [Addr 0x4000];
       Some [Addr 0x1000]].
Proof. vm_compute. repeat split; reflexivity. Qed.

(** ** Memory writes *)

Section MemoryWrites.
Context {State : Type}.

Lemma record_fold_other (d d' : table) (v : item) (c : crawl State) ks :
  d' ≠ d →
  refs (foldl (λ c i, record d i v c) c ks) d' = refs c d'.
Proof.
  intros Hd. revert c. induction ks as [|k ks IH]; intros c; [done|].
  simpl. rewrite IH. simpl. by apply append_to_other.
Qed.

(** No write is ever entered into [data_writes_from]. *)
Lemma track_write_writes_from (c : crawl State) (r : SimRef.t) :
  refs (track_write c r) data_writes_from = refs c data_writes_from.
Proof.
  unfold track_write. destruct (SimRef.addr r) as [|t]; [done|].
  rewrite record_fold_other by done. simpl.
  by rewrite append_to_other.
Qed.

(** The pair goes to [data_writes_to], under the target. *)
Lemma track_write_pair (c : crawl State) (i t sz : Z) :
  ∃ l, refs (track_write c (SimRef.mk (Concrete t) i sz)) data_writes_to !!! t
       = refs c data_writes_to !!! t ++ AddrSize i (sz / 8) :: l.
Proof.
  unfold track_write. cbn [SimRef.addr SimRef.inst_addr SimRef.size].
  set (c1 := record _ _ _ _).
  assert (H1 : refs c1 data_writes_to !!! t
               = refs c data_writes_to !!! t ++ [AddrSize i (sz / 8)])
    by apply append_to_same.
  assert (∀ ks (c2 : crawl State), ∃ l,
    refs (foldl (λ c i0, record data_writes_to i0 (Addr i) c) c2 ks)
         data_writes_to !!! t = refs c2 data_writes_to !!! t ++ l) as Hfold.
  { induction ks as [|k ks IH]; intros c2.
    - exists []. by rewrite app_nil_r.
    - simpl. destruct (IH (record data_writes_to k (Addr i) c2)) as [l Hl].
      rewrite Hl. simpl. destruct (decide (k = t)) as [->|Hk].
      + rewrite append_to_same. exists (Addr i :: l). by rewrite <- app_assoc.
      + rewrite append_to_same_ne by done. by exists l. }
  destruct (Hfold (seqZ t (sz / 8)) c1) as [l Hl].
  exists l. rewrite Hl, H1. by rewrite <- app_assoc.
Qed.

End MemoryWrites.

(** C3: at a block with one read and one write of four bytes by the
    instruction at [0x1000], the read is entered as the claim says
    ([data_reads_from[0x1000]] holds the pair, [data_reads_to] the
    instruction), but the write is not entered symmetrically:
    [data_writes_from] stays empty and the pair [(0x1000, 4)] is put in
    [data_writes_to[0x2000]], before the instruction address. *)
Theorem writes_not_symmetric :
  match make_refs read_write_program ∅ 2 0x1000 tt with
  | Returned c =>
      refs c data_reads_from !! 0x1000 = Some [AddrSize 0x3000 4]
      ∧ refs c data_reads_to !! 0x3000 = Some [Addr 0x1000]
      ∧ refs c data_writes_from = ∅
      ∧ refs c data_writes_to !! 0x2000 = Some [AddrSize 0x1000 4; Addr 0x1000]
      ∧ refs c data_writes_to !! 0x2003 = Some [Addr 0x1000]
  | _ => False
  end.
Proof. vm_compute. repeat split; reflexivity. Qed.

(** ** Pseudo-addresses *)

Lemma byte_to_Z_bounds (b : byte) : 0 ≤ Z.of_N (Byte.to_N b) < 256.
Proof. pose proof (Byte.to_N_bounded b). lia. Qed.

Lemma little_endian_bounds (bs : list byte) :
  0 ≤ little_endian bs < 256 ^ Z.of_nat (length bs).
Proof.
  induction bs as [|b bs IH]; [simpl; lia|].
  cbn [little_endian foldr length]. fold (little_endian bs).
  rewrite Nat2Z.inj_succ, Z.pow_succ_r by lia.
  pose proof (byte_to_Z_bounds b). lia.
Qed.

Section PseudoAddress.
Variable md5_digest : string → list byte.
Hypothesis md5_digest_16 : ∀ s, length (md5_digest s) = 16%nat.

(** What the code unpacks is the integer that the specification
    describes. *)
Lemma unpack_pseudo_address (lib func_name : string) :
  struct_unpack_Q (take 8 (md5_digest (lib ++ "_" ++ func_name)))
  = Returned (pseudo_address md5_digest lib func_name).
Proof.
  unfold struct_unpack_Q, pseudo_address.
  pose proof (md5_digest_16 (lib ++ "_" ++ func_name)) as Hlen.
  destruct (md5_digest (lib ++ "_" ++ func_name))
    as [|b0 [|b1 [|b2 [|b3 [|b4 [|b5 [|b6 [|b7 d]]]]]]]]; try done.
  rewrite bool_decide_eq_true_2 by done. f_equal.
  cbn [take little_endian foldr fmap list_fmap seq lookup_total
       list_lookup_total].
  change (8 * Z.of_nat 0) with 0. change (8 * Z.of_nat 1) with 8.
  change (8 * Z.of_nat 2) with 16. change (8 * Z.of_nat 3) with 24.
  change (8 * Z.of_nat 4) with 32. change (8 * Z.of_nat 5) with 40.
  change (8 * Z.of_nat 6) with 48. change (8 * Z.of_nat 7) with 56.
  change (2 ^ 0) with 1. change (2 ^ 8) with 256.
  change (2 ^ 16) with 65536. change (2 ^ 24) with 16777216.
  change (2 ^ 32) with 4294967296. change (2 ^ 40) with 1099511627776.
  change (2 ^ 48) with 281474976710656.
  change (2 ^ 56) with 72057594037927936.
  rewrite take_0. cbn [foldr]. lia.
Qed.

Lemma pseudo_address_bounds (lib func_name : string) :
  0 ≤ pseudo_address md5_digest lib func_name < 2 ^ 64.
Proof.
  pose proof (unpack_pseudo_address lib func_name) as Hu.
  unfold struct_unpack_Q in Hu. case_bool_decide as Hlen; [|done].
  injection Hu as <-.
  pose proof (little_endian_bounds
                (take 8 (md5_digest (lib ++ "_" ++ func_name)))) as Hb.
  rewrite Hlen in Hb. exact Hb.
Qed.

End PseudoAddress.

Lemma for_each_inv {A S : Type} (P : S → Prop) (body : S → A → run S) l s s' :
  (∀ s x s', x ∈ l → P s → body s x = Returned s' → P s') →
  P s → for_each body s l = Returned s' → P s'.
Proof.
  revert s. induction l as [|x l IH]; intros s Hbody Hs Hrun.
  - simpl in Hrun. by injection Hrun as <-.
  - simpl in Hrun. destruct (body s x) as [s1| |] eqn:Hx; try done.
    simpl in Hrun. apply (IH s1); [|by eapply Hbody; [left| |]|done].
    intros s2 y s3 Hy. apply Hbody. by right.
Qed.

Section SetSimProcedure.
Context {SimProcedure : Type}.
Implicit Type p : Project SimProcedure.
Variable md5_digest : string → list byte.

(** What a call of [set_sim_procedure] that returns has done. *)
Lemma set_sim_procedure_inv p binary lib func_name sim_proc p' :
  set_sim_procedure md5_digest p binary lib func_name sim_proc = Returned p' →
  ∃ b b' k,
    binaries p !! binary = Some b
    ∧ struct_unpack_Q (take 8 (md5_digest (lib ++ "_" ++ func_name)))
      = Returned k
    ∧ p' = mkProject (<[binary := b']> (binaries p)) (filename p)
                     (min_addr p) (max_addr p) (entry p)
                     (<[k := sim_proc]> (sim_procedures p)).
Proof.
  unfold set_sim_procedure. intros Hrun.
  destruct (binaries p !! binary) as [b|]; [|done].
  destruct (struct_unpack_Q _) as [k| |] eqn:Hk; try done.
  simpl in Hrun. injection Hrun as <-. eauto 10.
Qed.

Hypothesis md5_digest_16 : ∀ s, length (md5_digest s) = 16%nat.

(** C5: whatever the project, the image and the stub, a call of
    [set_sim_procedure] for the library [lib] and the function
    [func_name] returns and registers the stub under one and the same
    address: the first eight bytes of the digest of
    [lib + "_" + func_name] read as an unsigned little-endian integer,
    below [2^64]. *)
Theorem set_sim_procedure_pseudo_addr p binary lib func_name sim_proc :
  is_Some (binaries p !! binary) →
  ∃ p',
    set_sim_procedure md5_digest p binary lib func_name sim_proc = Returned p'
    ∧ sim_procedures p'
      = <[pseudo_address md5_digest lib func_name := sim_proc]>
          (sim_procedures p)
    ∧ sim_procedures p' !! pseudo_address md5_digest lib func_name
      = Some sim_proc
    ∧ 0 ≤ pseudo_address md5_digest lib func_name < 2 ^ 64.
Proof.
  intros [b Hb]. unfold set_sim_procedure. rewrite Hb.
  rewrite unpack_pseudo_address by done. simpl.
  eexists. split; [done|]. simpl. split; [done|].
  split; [apply lookup_insert_eq|].
  by apply pseudo_address_bounds.
Qed.

End SetSimProcedure.

(** With the digest of the library, ["libc.so.6"] and ["printf"] give
    [0x4fec286f98421bb3], the first eight bytes of
    [b31b42986f28ec4f f1e76d006d56f6d2] read backwards. *)
Lemma set_sim_procedure_pseudo_addr_witness :
  ∃ p',
    set_sim_procedure MD5.digest two_images "a.out" "libc.so.6" "printf"
                      "SimPrintf" = Returned p'
    ∧ sim_procedures p'
      = <[pseudo_address MD5.digest "libc.so.6" "printf" := "SimPrintf"]>
          (sim_procedures two_images)
    ∧ sim_procedures p' !! pseudo_address MD5.digest "libc.so.6" "printf"
      = Some "SimPrintf"
    ∧ 0 ≤ pseudo_address MD5.digest "libc.so.6" "printf" < 2 ^ 64.
Proof.
  apply (set_sim_procedure_pseudo_addr MD5.digest md5_digest_length two_images).
  vm_compute. eauto.
Defined.

Example printf_pseudo_address :
  pseudo_address MD5.digest "libc.so.6" "printf" = 0x4fec286f98421bb3.
Proof. vm_compute. reflexivity. Qed.

(** The eight bytes are written at the patch site of the import. *)
Example printf_patch_site :
  match set_sim_procedure MD5.digest two_images "a.out" "libc.so.6" "printf"
                          "SimPrintf" with
  | Returned p' =>
      (λ b, (λ a, MD5.Z_of_byte <$> Binary.ida_mem b !! a)
              <$> seqZ 0x601018 8) <$> binaries p' !! "a.out"
      = Some (Some <$> [0xb3; 0x1b; 0x42; 0x98; 0x6f; 0x28; 0xec; 0x4f])
  | _ => False
  end.
Proof. vm_compute. reflexivity. Qed.

(** ** Stubs are for the main image only *)

Section MainOnly.
Context {SimProcedure : Type}.
Implicit Type p : Project SimProcedure.
Variable md5_digest : string → list byte.
Variable SimProcedures : gmap string (gmap string SimProcedure).

(** C10: when [resolve_imports_using_sim_procedures] returns, every
    image other than the main one is as it was (its import table, the
    slots of its imports and its bytes), and every entry of
    [sim_procedures] that was not there before stands for an import of
    the main image. *)
Theorem sim_procedures_main_only p p' log :
  resolve_imports_using_sim_procedures md5_digest SimProcedures p
  = Returned (p', log) →
  (∀ name, name ≠ filename p → binaries p' !! name = binaries p !! name)
  ∧ (∀ k sim_proc,
       sim_procedures p' !! k = Some sim_proc →
       sim_procedures p !! k = Some sim_proc
       ∨ ∃ main, binaries p !! filename p = Some main
                 ∧ stub_of_main md5_digest SimProcedures main k sim_proc).
Proof.
  unfold resolve_imports_using_sim_procedures.
  destruct (binaries p !! filename p) as [main|] eqn:Hmain; [|done].
  intros Hrun.
  set (P := λ s : Project SimProcedure * list log_event,
    filename s.1 = filename p
    ∧ (∀ name, name ≠ filename p → binaries s.1 !! name = binaries p !! name)
    ∧ (∀ k sim_proc,
         sim_procedures s.1 !! k = Some sim_proc →
         sim_procedures p !! k = Some sim_proc
         ∨ stub_of_main md5_digest SimProcedures main k sim_proc)).
  assert (P (p', log)) as (_ & Hframe & Hstubs).
  { refine (for_each_inv P _ _ _ _ _ _ Hrun);
      [|unfold P; simpl; split; [done|]; split; [done|]; intros; by left].
    clear Hrun. intros [p1 log1] lib [p2 log2] Hlib HP1. simpl.
    destruct (SimProcedures !! lib) as [functions|] eqn:Hfuns;
      [|by intros [= <- <-]].
    intros Hrun. refine (for_each_inv P _ _ _ _ _ _ Hrun); [|exact HP1].
    clear Hrun HP1. intros [p3 log3] [imp sites] [p4 log4] Himp HP3.
    simpl. destruct (functions !! imp) as [sim_proc|] eqn:Hfun;
      [|by intros [= <- <-]].
    destruct (set_sim_procedure _ _ _ _ _ _) as [p5| |] eqn:Hset; try done.
    simpl. intros [= <- <-].
    apply set_sim_procedure_inv in Hset as (b & b' & k & Hb & Hk & ->).
    destruct HP3 as (Hname & Hframe & Hstubs). unfold P. simpl in *.
    split; [done|]. split.
    - intros name Hne. rewrite lookup_insert_ne by congruence. by apply Hframe.
    - intros k' sp'. rewrite lookup_insert. case_decide as Hkk.
      + intros [= <-]. subst k'. right. by exists lib, imp, sites, functions.
      + by apply Hstubs. }
  split; [done|]. intros k sim_proc Hk.
  destruct (Hstubs k sim_proc Hk); eauto.
Qed.

End MainOnly.

Lemma sim_procedures_main_only_witness :
  ∃ p' log,
    resolve_imports_using_sim_procedures MD5.digest libc_stubs two_images
    = Returned (p', log)
    ∧ (∀ name, name ≠ "a.out" →
               binaries p' !! name = binaries two_images !! name)
    ∧ (∀ k sim_proc,
         sim_procedures p' !! k = Some sim_proc →
         sim_procedures two_images !! k = Some sim_proc
         ∨ ∃ main, binaries two_images !! "a.out" = Some main
                   ∧ stub_of_main MD5.digest libc_stubs main k sim_proc).
Proof.
  eexists _, _. split; [vm_compute; reflexivity|].
  eapply (sim_procedures_main_only MD5.digest libc_stubs two_images).
  vm_compute. reflexivity.
Defined.

(** The one stub of the example is the one of [printf], and the image of
    ["libfoo.so"], which imports [printf] as well, keeps its bytes. *)
Example two_images_stubs :
  match resolve_imports_using_sim_procedures MD5.digest libc_stubs two_images
  with
  | Returned (p', log) =>
      map_to_list (sim_procedures p') = [(0x4fec286f98421bb3, "SimPrintf")]
      ∧ binaries p' !! "libfoo.so" = Some libfoo
      ∧ log = [AbstractProcLib "libc.so.6"; AbstractProcImport "printf";
               AbstractProcFound "printf"; AbstractProcImport "foo";
               AbstractProcLib "libfoo.so"]
  | _ => False
  end.
Proof. vm_compute. repeat split; reflexivity. Qed.

(** ** Imports resolved from the libraries *)

Section ResolveExports.

Lemma same_tables_refl b : same_tables b b.
Proof. by repeat split. Qed.

Lemma same_tables_trans b1 b2 b3 :
  same_tables b1 b2 → same_tables b2 b3 → same_tables b1 b3.
Proof.
  intros (?&?&?&?&?) (?&?&?&?&?). repeat split; congruence.
Qed.

(** The dictionary [resolved] after the exports of one library. *)
Lemma resolve_exports_lookup lib_name lib resolved log x :
  (resolve_exports lib_name lib (resolved, log)).1 !! x
  = (if bool_decide (x ∈ (Binary.get_exports lib).*1)
     then Binary.get_symbol_addr lib x else None) ∪ resolved !! x.
Proof.
  unfold resolve_exports.
  generalize (Binary.get_exports lib) as l. intros l.
  revert resolved log. induction l as [|[e ty] l IH]; intros resolved log.
  - cbn [foldl fst]. rewrite bool_decide_eq_false_2 by set_solver.
    by rewrite (left_id None _).
  - cbn [foldl]. destruct (Binary.get_symbol_addr lib e) as [a|] eqn:He.
    + rewrite IH. rewrite fmap_cons. cbn [fst].
      destruct (decide (e = x)) as [->|Hne].
      * rewrite (bool_decide_eq_true_2 (x ∈ x :: l.*1)) by set_solver.
        rewrite lookup_insert_eq, He.
        by case_bool_decide; destruct (resolved !! x).
      * rewrite lookup_insert_ne by done. case_bool_decide as Hl.
        -- rewrite bool_decide_eq_true_2 by set_solver. done.
        -- rewrite bool_decide_eq_false_2 by set_solver. done.
    + rewrite IH. rewrite fmap_cons. cbn [fst].
      destruct (decide (e = x)) as [->|Hne].
      * rewrite (bool_decide_eq_true_2 (x ∈ x :: l.*1)) by set_solver.
        rewrite He. by case_bool_decide; destruct (resolved !! x).
      * case_bool_decide as Hl.
        -- rewrite bool_decide_eq_true_2 by set_solver. done.
        -- rewrite bool_decide_eq_false_2 by set_solver. done.
Qed.

(** The log only grows, and holds a warning for each failing export. *)
Lemma resolve_exports_log lib_name lib resolved log :
  let log' := (resolve_exports lib_name lib (resolved, log)).2 in
  (∀ ev, ev ∈ log → ev ∈ log')
  ∧ (∀ e ty, (e, ty) ∈ Binary.get_exports lib →
             Binary.get_symbol_addr lib e = None →
             UnableToGetAddress e ty lib_name ∈ log').
Proof.
  unfold resolve_exports.
  generalize (Binary.get_exports lib) as l. intros l.
  revert resolved log. induction l as [|[e ty] l IH]; intros resolved log.
  - simpl. split; [done|]. intros ?? Hin. by apply elem_of_nil in Hin.
  - cbn [foldl]. destruct (Binary.get_symbol_addr lib e) as [a|] eqn:He.
    + destruct (IH (<[e:=a]> resolved) log) as [Hmono Hwarn].
      split; [done|]. intros e' ty' Hin Hnone.
      apply elem_of_cons in Hin as [[= -> ->]|Hin]; [congruence|eauto].
    + destruct (IH resolved (log ++ [UnableToGetAddress e ty lib_name]))
        as [Hmono Hwarn].
      split; [intros ev Hev; apply Hmono; set_solver|].
      intros e' ty' Hin Hnone.
      apply elem_of_cons in Hin as [[= -> ->]|Hin]; [|eauto].
      apply Hmono. set_solver.
Qed.

(** The dictionary [resolved] of an image: its entries come from the
    exports of the libraries that the image names. *)
Lemma collect_resolved_sound bins b log x a :
  (collect_resolved bins b log).1 !! x = Some a → exports_to bins b x a.
Proof.
  unfold collect_resolved, exports_to.
  generalize (Binary.get_lib_names b) as l. intros l.
  assert (∀ (acc : gmap string Z * list log_event),
    (foldl (λ '(resolved, log) lib_name,
              match bins !! lib_name with
              | None => (resolved, log ++ [LibNotLoaded lib_name])
              | Some lib => resolve_exports lib_name lib (resolved, log)
              end) acc l).1 !! x = Some a →
    acc.1 !! x = Some a
    ∨ ∃ lib_name lib export_type,
        lib_name ∈ l ∧ bins !! lib_name = Some lib
        ∧ (x, export_type) ∈ Binary.get_exports lib
        ∧ Binary.get_symbol_addr lib x = Some a) as Hgen.
  { induction l as [|ln l IH]; intros [r lg]; [by left|].
    cbn [foldl]. intros Hres. apply IH in Hres as [Hres|Hres].
    - destruct (bins !! ln) as [lib|] eqn:Hlib; [|by left].
      rewrite resolve_exports_lookup in Hres.
      case_bool_decide as Hin.
      + destruct (Binary.get_symbol_addr lib x) as [a'|] eqn:Ha.
        * assert (a' = a) as -> by (by destruct (r !! x); injection Hres).
          apply list_elem_of_fmap in Hin as [[x' ty] [-> Hin]].
          right. exists ln, lib, ty. set_solver.
        * left. by rewrite (left_id None _) in Hres.
      + left. by rewrite (left_id None _) in Hres.
    - right. destruct Hres as (ln' & lib & ty & ? & ? & ? & ?).
      exists ln', lib, ty. set_solver. }
  intros Hres. by apply Hgen in Hres as [Hres|Hres].
Qed.

Lemma collect_resolved_complete bins b log x a :
  exports_to bins b x a → is_Some ((collect_resolved bins b log).1 !! x).
Proof.
  unfold collect_resolved, exports_to.
  generalize (Binary.get_lib_names b) as l. intros l.
  intros (ln & lib & ty & Hln & Hlib & Hexp & Ha). revert Hln.
  generalize (∅ : gmap string Z, log).
  assert (∀ l (acc : gmap string Z * list log_event),
    is_Some (acc.1 !! x) →
    is_Some ((foldl (λ '(resolved, log) lib_name,
              match bins !! lib_name with
              | None => (resolved, log ++ [LibNotLoaded lib_name])
              | Some lib => resolve_exports lib_name lib (resolved, log)
              end) acc l).1 !! x)) as Hkeep.
  { clear l. induction l as [|ln' l IH]; intros [r lg] Hsome; [done|].
    cbn [foldl]. apply IH. destruct (bins !! ln') as [lib'|]; [|done].
    rewrite resolve_exports_lookup. destruct Hsome as [a' Ha'].
    simpl in Ha'. rewrite Ha'. by destruct (if bool_decide _ then _ else _). }
  induction l as [|ln' l IH]; intros [r lg] Hln.
  - by apply elem_of_nil in Hln.
  - cbn [foldl]. apply elem_of_cons in Hln as [<-|Hln]; [|by apply IH].
    apply Hkeep. rewrite Hlib. rewrite resolve_exports_lookup.
    rewrite bool_decide_eq_true_2.
    + rewrite Ha. by destruct (r !! x).
    + apply list_elem_of_fmap. by exists (x, ty).
Qed.

Lemma collect_resolved_log bins b log :
  let log' := (collect_resolved bins b log).2 in
  (∀ ev, ev ∈ log → ev ∈ log')
  ∧ (∀ e ty ln, export_fails bins b e ty ln →
                UnableToGetAddress e ty ln ∈ log').
Proof.
  unfold collect_resolved, export_fails.
  generalize (Binary.get_lib_names b) as l. intros l.
  generalize (∅ : gmap string Z). revert log.
  induction l as [|ln l IH]; intros log r.
  - simpl. split; [done|]. intros e ty ln' [Hin _]. by apply elem_of_nil in Hin.
  - cbn [foldl]. destruct (bins !! ln) as [lib|] eqn:Hlib.
    + destruct (resolve_exports ln lib (r, log)) as [r1 log1] eqn:Hre.
      pose proof (resolve_exports_log ln lib r log) as [Hm1 Hw1].
      rewrite Hre in Hm1, Hw1. simpl in Hm1, Hw1.
      destruct (IH log1 r1) as [Hm Hw]. split; [by eauto|].
      intros e ty ln' [Hin (lib' & Hlib' & Hexp & Hnone)].
      apply elem_of_cons in Hin as [->|Hin].
      * apply Hm. apply Hw1; congruence.
      * apply Hw. split; [done|]. by exists lib'.
    + destruct (IH (log ++ [LibNotLoaded ln]) r) as [Hm Hw].
      split; [intros ev Hev; apply Hm; set_solver|].
      intros e ty ln' [Hin (lib' & Hlib' & Hexp & Hnone)].
      apply elem_of_cons in Hin as [->|Hin]; [congruence|].
      apply Hw. split; [done|]. by exists lib'.
Qed.

End ResolveExports.

Section PatchImports.

Lemma patch_imports_spec resolved b log :
  let r := patch_imports resolved b log in
  same_tables b r.1
  ∧ (∀ x, Binary.resolved_imports r.1 !! x
          = if bool_decide (x ∈ (Binary.get_imports b).*1)
            then resolved !! x ∪ Binary.resolved_imports b !! x
            else Binary.resolved_imports b !! x)
  ∧ (∀ ev, ev ∈ log → ev ∈ r.2)
  ∧ (∀ x, x ∈ (Binary.get_imports b).*1 → resolved !! x = None →
          UnableToResolveImport x (Binary.filename b) ∈ r.2).
Proof.
  unfold patch_imports.
  generalize (Binary.get_imports b) as l. intros l.
  revert b log. induction l as [|[imp sites] l IH]; intros b log.
  - cbn [foldl fst snd]. split; [apply same_tables_refl|].
    split; [intros x; by rewrite bool_decide_eq_false_2 by set_solver|].
    split; [done|]. intros x Hx. by apply elem_of_nil in Hx.
  - cbn [foldl]. rewrite fmap_cons. cbn [fst].
    destruct (resolved !! imp) as [a|] eqn:Himp.
    + destruct (IH (Binary.resolve_import imp a b)
                   (log ++ [ResolvingImport imp (Binary.filename b) a]))
        as (Hsame & Hri & Hmono & Hwarn).
      split; [by eapply same_tables_trans; [|exact Hsame]|].
      split; [|split].
      * intros x. rewrite Hri. cbn [Binary.resolve_import Binary.resolved_imports].
        destruct (decide (imp = x)) as [->|Hne].
        -- rewrite lookup_insert_eq, Himp.
           rewrite (bool_decide_eq_true_2 (x ∈ x :: l.*1)) by set_solver.
           by case_bool_decide; destruct (Binary.resolved_imports b !! x).
        -- rewrite lookup_insert_ne by done. case_bool_decide.
           ++ by rewrite bool_decide_eq_true_2 by set_solver.
           ++ by rewrite bool_decide_eq_false_2 by set_solver.
      * intros ev Hev. apply Hmono. set_solver.
      * intros x Hx Hnone. apply elem_of_cons in Hx as [->|Hx]; [congruence|].
        by apply Hwarn.
    + destruct (IH b (log ++ [UnableToResolveImport imp (Binary.filename b)]))
        as (Hsame & Hri & Hmono & Hwarn).
      split; [done|]. split; [|split].
      * intros x. rewrite Hri. destruct (decide (imp = x)) as [->|Hne].
        -- rewrite (bool_decide_eq_true_2 (x ∈ x :: l.*1)) by set_solver.
           rewrite Himp. case_bool_decide; [done|].
           by destruct (Binary.resolved_imports b !! x).
        -- case_bool_decide.
           ++ by rewrite bool_decide_eq_true_2 by set_solver.
           ++ by rewrite bool_decide_eq_false_2 by set_solver.
      * intros ev Hev. apply Hmono. set_solver.
      * intros x Hx Hnone. apply elem_of_cons in Hx as [->|Hx]; [|by apply Hwarn].
        apply Hmono. set_solver.
Qed.

Lemma exports_to_agree bins0 bins b0 b x a :
  tables_agree bins0 bins → same_tables b0 b →
  exports_to bins b x a ↔ exports_to bins0 b0 x a.
Proof.
  intros Hagree (_ & Hlibs & _). unfold exports_to, Binary.get_symbol_addr.
  split; intros (ln & lib & ty & Hln & Hlib & Hexp & Ha);
    specialize (Hagree ln); rewrite Hlib in Hagree.
  - destruct (bins0 !! ln) as [lib0|] eqn:Hlib0; [|done].
    destruct Hagree as (_ & _ & He & Hs & _).
    exists ln, lib0, ty. rewrite He, Hs, Hlibs. done.
  - destruct (bins !! ln) as [lib1|] eqn:Hlib1; [|done].
    destruct Hagree as (_ & _ & He & Hs & _).
    exists ln, lib1, ty. rewrite <- He, <- Hs, <- Hlibs. done.
Qed.

Lemma export_fails_agree bins0 bins b0 b e ty ln :
  tables_agree bins0 bins → same_tables b0 b →
  export_fails bins0 b0 e ty ln → export_fails bins b e ty ln.
Proof.
  intros Hagree (_ & Hlibs & _). unfold export_fails, Binary.get_symbol_addr.
  intros (Hln & lib0 & Hlib0 & Hexp & Ha).
  specialize (Hagree ln). rewrite Hlib0 in Hagree.
  destruct (bins !! ln) as [lib1|] eqn:Hlib1; [|done].
  destruct Hagree as (_ & _ & He & Hs & _).
  split; [by rewrite <- Hlibs|]. exists lib1. by rewrite <- He, <- Hs.
Qed.

End PatchImports.

Section ResolveImportsFromLibs.
Context {SimProcedure : Type}.
Variable dict_values : gmap string Binary.t → list string.

Lemma resolving_agree bins0 seen acc :
  resolving bins0 seen acc → tables_agree bins0 acc.1.
Proof.
  intros Hres n. specialize (Hres n).
  destruct (bins0 !! n) as [b0|]; [|by rewrite Hres].
  by destruct Hres as (b & -> & ? & _).
Qed.

Lemma imports_settled_mono bins0 b0 b log log' :
  (∀ ev, ev ∈ log → ev ∈ log') →
  imports_settled bins0 b0 b log → imports_settled bins0 b0 b log'.
Proof.
  intros Hmono [Himp Hexp]. split; [|by eauto].
  intros x Hx. destruct (Himp x Hx) as [H1 H2]. split; [done|by eauto].
Qed.

(** One image more gone through. *)
Lemma resolve_imports_of_resolving bins0 seen name acc :
  resolving bins0 seen acc →
  resolving bins0 (seen ++ [name]) (resolve_imports_of name acc).
Proof.
  intros Hres. pose proof (resolving_agree _ _ _ Hres) as Hagree.
  destruct acc as [bins log]. unfold resolve_imports_of. simpl in Hagree.
  unfold resolving in *.
  destruct (bins !! name) as [b|] eqn:Hb.
  2:{ intros n. specialize (Hres n). cbn [fst snd] in *.
      destruct (bins0 !! n) as [b0|] eqn:Hb0; [|done].
      destruct Hres as (b & Hn & Hsame & Hsound & Hseen).
      exists b. split; [done|]. split; [done|]. split; [done|].
      intros Hin. apply elem_of_app in Hin as [Hin|Hin]; [by apply Hseen|].
      apply list_elem_of_singleton in Hin as ->. simpl in Hn. congruence. }
  destruct (collect_resolved bins b log) as [resolved log1] eqn:Hcol.
  destruct (patch_imports resolved b log1) as [b' log2] eqn:Hpatch.
  pose proof (collect_resolved_log bins b log) as [Hm1 Hw1].
  rewrite Hcol in Hm1, Hw1. simpl in Hm1, Hw1.
  pose proof (patch_imports_spec resolved b log1) as (Hs2 & Hri & Hm2 & Hw2).
  rewrite Hpatch in Hs2, Hri, Hm2, Hw2. simpl in Hs2, Hri, Hm2, Hw2.
  assert (∀ x a, resolved !! x = Some a → exports_to bins b x a) as Hsnd.
  { intros x a Hx. apply (collect_resolved_sound bins b log). by rewrite Hcol. }
  assert (∀ x a, exports_to bins b x a → is_Some (resolved !! x)) as Hcpl.
  { intros x a Hx. pose proof (collect_resolved_complete bins b log x a Hx) as H.
    by rewrite Hcol in H. }
  intros n. pose proof (Hres n) as Hn.
  destruct (bins0 !! n) as [b0|] eqn:Hb0.
  2:{ simpl in *. rewrite lookup_insert_ne; [done|]. intros ->. congruence. }
  destruct Hn as (bn & Hbn & Hsame & Hsound & Hseen). simpl in Hbn.
  destruct (decide (name = n)) as [->|Hne].
  - assert (bn = b) as -> by congruence.
    exists b'. cbn [fst snd]. rewrite lookup_insert_eq. split; [done|].
    split; [by eapply same_tables_trans|].
    pose proof (exports_to_agree bins0 bins b0 b) as Htr.
    assert (Binary.get_imports b0 = Binary.get_imports b) as Himps
      by (by destruct Hsame as (_ & _ & _ & _ & ?)).
    assert (Binary.filename b0 = Binary.filename b) as Hfile
      by (by destruct Hsame as (? & _)).
    split.
    + intros x. rewrite Hri. case_bool_decide; [|exact (Hsound x)].
      destruct (resolved !! x) as [a|] eqn:Hx.
      * right. exists a. split; [by destruct (Binary.resolved_imports b !! x)|].
        apply Htr; [done..|]. by apply Hsnd.
      * replace (None ∪ Binary.resolved_imports b !! x)
          with (Binary.resolved_imports b !! x)
          by (by destruct (Binary.resolved_imports b !! x)).
        exact (Hsound x).
    + intros _. split.
      * intros x Hx. rewrite Himps in Hx. rewrite Hri.
        rewrite bool_decide_eq_true_2 by done. split.
        -- intros [a Ha]. apply Htr in Ha; [|done..].
           destruct (Hcpl x a Ha) as [a' Ha']. exists a'. rewrite Ha'.
           split; [by destruct (Binary.resolved_imports b !! x)|].
           apply Htr; [done..|]. by apply Hsnd.
        -- intros Hnone. rewrite Hfile. apply Hw2; [done|].
           destruct (resolved !! x) as [a|] eqn:Hr; [|done].
           exfalso. apply (Hnone a). apply Htr; [done..|]. by apply Hsnd.
      * intros e ty ln Hfail. apply Hm2, Hw1.
        by eapply export_fails_agree.
  - exists bn. cbn [fst snd]. rewrite lookup_insert_ne by done.
    split; [done|]. split; [done|]. split; [done|].
    intros Hin. apply elem_of_app in Hin as [Hin|Hin].
    + eapply imports_settled_mono; [|by apply Hseen].
      intros ev Hev. by apply Hm2, Hm1.
    + apply list_elem_of_singleton in Hin. congruence.
Qed.

Lemma resolving_init bins0 : resolving bins0 [] (bins0, []).
Proof.
  intros n. destruct (bins0 !! n) as [b0|] eqn:Hb0; [|done].
  exists b0. split; [done|]. split; [apply same_tables_refl|].
  split; [by left|]. intros Hin. by apply elem_of_nil in Hin.
Qed.

Lemma resolving_fold bins0 seen acc l :
  resolving bins0 seen acc →
  resolving bins0 (seen ++ l)
            (foldl (λ acc name, resolve_imports_of name acc) acc l).
Proof.
  revert seen acc. induction l as [|name l IH]; intros seen acc Hres.
  - by rewrite app_nil_r.
  - cbn [foldl]. rewrite (assoc_L (++) seen [name] l : seen ++ name :: l = _).
    apply IH. by apply resolve_imports_of_resolving.
Qed.

(** C6: for every loaded image [b] that the loop goes through, and
    every import [imp] of [b]: if the name matches an export, with an
    address, of a library that [b] names and that is loaded, the slot
    of the import holds the address of such an export (the address of
    that export when the matching exports agree on it); if no export
    matches, the slot is as it was and the warning of the unresolved
    import is logged. An export whose lookup fails is logged as a
    warning, whatever the rest. The resolution is a total function: it
    returns the project and the log, and raises nothing. *)
Theorem imports_resolved_from_libs (p p' : Project SimProcedure) log name b :
  resolve_imports_from_libs dict_values p = (p', log) →
  binaries p !! name = Some b →
  name ∈ dict_values (binaries p) →
  ∃ b',
    binaries p' !! name = Some b'
    ∧ (∀ imp sites, (imp, sites) ∈ Binary.get_imports b →
         ((∃ a, exports_to (binaries p) b imp a) →
          ∃ a, exports_to (binaries p) b imp a
               ∧ Binary.resolved_imports b' !! imp = Some a)
         ∧ (∀ a, exports_to (binaries p) b imp a →
                 (∀ a', exports_to (binaries p) b imp a' → a' = a) →
                 Binary.resolved_imports b' !! imp = Some a)
         ∧ ((∀ a, ¬ exports_to (binaries p) b imp a) →
            Binary.resolved_imports b' !! imp
            = Binary.resolved_imports b !! imp
            ∧ UnableToResolveImport imp (Binary.filename b) ∈ log))
    ∧ (∀ e ty ln, export_fails (binaries p) b e ty ln →
                  UnableToGetAddress e ty ln ∈ log).
Proof.
  unfold resolve_imports_from_libs. intros Hrun Hb Hname.
  pose proof (resolving_fold (binaries p) [] (binaries p, [])
                (dict_values (binaries p)) (resolving_init _)) as Hres.
  destruct (foldl _ _ _) as [bins log'] eqn:Hfold.
  injection Hrun as <- <-. cbn [binaries].
  specialize (Hres name). rewrite Hb in Hres. cbn [fst snd app] in Hres.
  destruct Hres as (b' & Hb' & Hsame & Hsound & Hsettled).
  destruct (Hsettled Hname) as [Himps Hfails].
  exists b'. split; [done|]. split; [|done].
  intros imp sites Himp.
  assert (imp ∈ (Binary.get_imports b).*1) as Hin
    by (apply list_elem_of_fmap; by exists (imp, sites)).
  destruct (Himps imp Hin) as [Hyes Hno]. split; [|split].
  - intros Hex. destruct (Hyes Hex) as (a & ? & ?). by exists a.
  - intros a Ha Huniq. destruct (Hyes (ex_intro _ a Ha)) as (a' & Hslot & Ha').
    by rewrite Hslot, (Huniq a' Ha').
  - intros Hnone. split; [|by apply Hno].
    destruct (Hsound imp) as [Heq|(a & _ & Ha)]; [done|].
    by destruct (Hnone a).
Qed.

End ResolveImportsFromLibs.

(** ["a.out"] imports [foo], which ["libfoo.so"] exports, and [printf],
    which no loaded library exports; the lookup of the export [bar] of
    ["libfoo.so"] fails. *)
Lemma imports_resolved_from_libs_witness :
  let res := resolve_imports_from_libs (λ m, elements (dom m)) two_images in
  ∃ b',
    binaries res.1 !! "a.out" = Some b'
    ∧ (∀ imp sites, (imp, sites) ∈ Binary.get_imports a_out →
         ((∃ a, exports_to (binaries two_images) a_out imp a) →
          ∃ a, exports_to (binaries two_images) a_out imp a
               ∧ Binary.resolved_imports b' !! imp = Some a)
         ∧ (∀ a, exports_to (binaries two_images) a_out imp a →
                 (∀ a', exports_to (binaries two_images) a_out imp a' → a' = a) →
                 Binary.resolved_imports b' !! imp = Some a)
         ∧ ((∀ a, ¬ exports_to (binaries two_images) a_out imp a) →
            Binary.resolved_imports b' !! imp
            = Binary.resolved_imports a_out !! imp
            ∧ UnableToResolveImport imp (Binary.filename a_out) ∈ res.2))
    ∧ (∀ e ty ln, export_fails (binaries two_images) a_out e ty ln →
                  UnableToGetAddress e ty ln ∈ res.2).
Proof.
  intros res.
  apply (imports_resolved_from_libs (λ m, elements (dom m)) two_images
           res.1 res.2 "a.out" a_out).
  - vm_compute. reflexivity.
  - vm_compute. reflexivity.
  - vm_compute. set_solver.
Defined.

Example two_images_resolved :
  let res := resolve_imports_from_libs (λ m, elements (dom m)) two_images in
  (λ b, map_to_list (Binary.resolved_imports b)) <$> binaries res.1 !! "a.out"
  = Some [("foo", 0x2000500)]
  ∧ res.2 = [LibNotLoaded "libc.so.6";
             UnableToGetAddress "bar" "FUNC" "libfoo.so";
             UnableToResolveImport "printf" "a.out";
             ResolvingImport "foo" "a.out" 0x2000500;
             LibNotLoaded "libc.so.6";
             UnableToResolveImport "printf" "libfoo.so"].
Proof. vm_compute. split; reflexivity. Qed.

(** ** The worklist of the crawler *)

Section SameWorklist.
Context {State : Type}.

Lemma same_worklist_refl (c : crawl State) : same_worklist c c.
Proof. done. Qed.

Lemma same_worklist_trans (c1 c2 c3 : crawl State) :
  same_worklist c1 c2 → same_worklist c2 c3 → same_worklist c1 c3.
Proof. intros (?&?&?) (?&?&?). repeat split; congruence. Qed.

Lemma analyzed_snoc log e :
  analyzed (log ++ [e])
  = analyzed log ++ match e with Analyzing a => [a] | _ => [] end.
Proof. unfold analyzed. rewrite omap_app. by destruct e. Qed.

Lemma log_msg_same_worklist e (c : crawl State) :
  (∀ a, e ≠ Analyzing a) → same_worklist c (log_msg e c).
Proof.
  intros He. repeat split. simpl. rewrite analyzed_snoc.
  destruct e; try by rewrite app_nil_r. by destruct (He a).
Qed.

Lemma record_same_worklist d k v (c : crawl State) :
  same_worklist c (record d k v c).
Proof. done. Qed.

Lemma record_fold_same_worklist d v (c : crawl State) ks :
  same_worklist c (foldl (λ c i, record d i v c) c ks).
Proof.
  revert c. induction ks as [|k ks IH]; intros c; [done|].
  simpl. eapply same_worklist_trans; [|apply IH]. done.
Qed.

End SameWorklist.

(** A message that is not [Analyzing], then entries in the
    dictionaries: the worklist is as it was. *)
Ltac same_worklist_steps :=
  repeat first
    [ by apply log_msg_same_worklist
    | eapply same_worklist_trans; [|apply record_fold_same_worklist]
    | eapply same_worklist_trans; [|apply record_same_worklist] ].

Section Worklist.
Context {State : Type}.
Variable sim_block : Z → State → exn + SimIRSB.t State.
Variable perm : gmap Z Z.

Lemma track_read_same_worklist (c : crawl State) r :
  same_worklist c (track_read c r).
Proof.
  unfold track_read. destruct (SimRef.addr r) as [|t].
  - by apply log_msg_same_worklist.
  - same_worklist_steps.
Qed.

Lemma track_write_same_worklist (c : crawl State) r :
  same_worklist c (track_write c r).
Proof.
  unfold track_write. destruct (SimRef.addr r) as [|t].
  - by apply log_msg_same_worklist.
  - same_worklist_steps.
Qed.

Lemma fold_same_worklist (f : crawl State → SimRef.t → crawl State) c rs :
  (∀ c r, same_worklist c (f c r)) → same_worklist c (foldl f c rs).
Proof.
  intros Hf. revert c. induction rs as [|r rs IH]; intros c; [done|].
  simpl. eapply same_worklist_trans; [apply Hf|apply IH].
Qed.

Lemma tidy_same_worklist (c c' : crawl State) :
  same_worklist c c' → tidy c → tidy c'.
Proof.
  intros (HS & HQ & HA) [Hnd Hin]. unfold tidy, visited in *.
  rewrite HS, HQ, HA. done.
Qed.

(** An address that is not discovered is queued. *)
Lemma tidy_enqueue t st (c : crawl State) :
  t ∉ sim_blocks c → tidy c → tidy (enqueue t st c).
Proof.
  intros Ht [Hnd Hin]. unfold tidy, visited in *. simpl. split.
  - apply NoDup_app in Hnd as (HA & HAQ & HQ). apply NoDup_app.
    split; [done|]. split.
    + intros a Ha. rewrite not_elem_of_cons. split; [|by apply HAQ].
      intros ->. apply Ht, Hin. set_solver.
    + apply NoDup_cons. split; [|done]. intros Hq. apply Ht, Hin. set_solver.
  - intros a Ha. apply elem_of_union.
    apply elem_of_app in Ha as [Ha|Ha]; [left; apply Hin; set_solver|].
    apply elem_of_cons in Ha as [->|Ha]; [right; set_solver|].
    left. apply Hin. set_solver.
Qed.

Lemma track_code_ref_tidy st (c : crawl State) r :
  tidy c → tidy (track_code_ref st c r).
Proof.
  unfold track_code_ref. destruct (SimRef.addr r) as [|t].
  - apply tidy_same_worklist. by apply log_msg_same_worklist.
  - intros Hc.
    set (c1 := record code_refs_from _ _ _).
    assert (tidy c1) as Hc1.
    { eapply tidy_same_worklist; [|exact Hc]. same_worklist_steps. }
    case_bool_decide; [by apply tidy_enqueue|done].
Qed.

Lemma track_memory_ref_tidy st (c : crawl State) r :
  tidy c → tidy (track_memory_ref perm st c r).
Proof.
  unfold track_memory_ref. destruct (SimRef.addr r) as [|t].
  - apply tidy_same_worklist. by apply log_msg_same_worklist.
  - intros Hc.
    set (c1 := record memory_refs_from _ _ _).
    assert (same_worklist c c1) as Hsame.
    { same_worklist_steps. }
    destruct (bool_decide (t ∉ sim_blocks c1)) eqn:Hnew; simpl.
    + apply bool_decide_eq_true in Hnew.
      destruct (bool_decide (t ∈ dom perm) && _).
      * apply tidy_enqueue; [done|].
        eapply tidy_same_worklist; [|exact Hc].
        eapply same_worklist_trans; [exact Hsame|].
        by apply log_msg_same_worklist.
      * eapply tidy_same_worklist; [|exact Hc].
        eapply same_worklist_trans; [exact Hsame|].
        destruct (bool_decide (t ∉ dom perm)); by apply log_msg_same_worklist.
    + eapply tidy_same_worklist; [|exact Hc].
      eapply same_worklist_trans; [exact Hsame|].
      destruct (bool_decide (t ∉ dom perm)); by apply log_msg_same_worklist.
Qed.

Lemma fold_tidy (f : crawl State → SimRef.t → crawl State) c rs :
  (∀ c r, tidy c → tidy (f c r)) → tidy c → tidy (foldl f c rs).
Proof.
  intros Hf. revert c. induction rs as [|r rs IH]; intros c Hc; [done|].
  simpl. by apply IH, Hf.
Qed.

Lemma track_block_tidy a s (c : crawl State) :
  NoDup (visited c) → (∀ x, x ∈ visited c → x ∈ sim_blocks c ∨ x = a) →
  tidy (track_block perm a s c).
Proof.
  intros Hnd Hin. unfold track_block.
  apply fold_tidy; [apply track_memory_ref_tidy|].
  apply fold_tidy; [apply track_code_ref_tidy|].
  eapply tidy_same_worklist;
    [apply fold_same_worklist, track_write_same_worklist|].
  eapply tidy_same_worklist;
    [apply fold_same_worklist, track_read_same_worklist|].
  split; [done|]. intros x Hx. simpl. apply elem_of_union.
  destruct (Hin x Hx) as [?| ->]; [by left|right; set_solver].
Qed.

Lemma crawling_same_worklist (c c' : crawl State) :
  same_worklist c c' → crawling c → crawling c'.
Proof.
  intros (HS & HQ & HA). unfold crawling, visited. by rewrite HS, HQ, HA.
Qed.

Lemma crawling_start entry (st0 : State) :
  crawling (mkCrawl ∅ [(entry, st0)] no_tables []).
Proof.
  split; [|right; simpl; lia]. unfold visited. simpl.
  apply NoDup_singleton.
Qed.

Lemma visited_popped (c : crawl State) a st rest :
  remaining_addrs c = (a, st) :: rest →
  visited (log_msg (Analyzing a)
             (mkCrawl (sim_blocks c) rest (refs c) (crawl_log c)))
  = analyzed (crawl_log c) ++ a :: rest.*1
  ∧ visited c = analyzed (crawl_log c) ++ a :: rest.*1.
Proof.
  intros Hq. unfold visited. rewrite Hq. simpl.
  rewrite analyzed_snoc. by rewrite <- app_assoc.
Qed.

(** One iteration keeps the invariant. *)
Lemma analyze_crawling (c c' : crawl State) a st rest :
  remaining_addrs c = (a, st) :: rest →
  analyze sim_block perm a st
          (mkCrawl (sim_blocks c) rest (refs c) (crawl_log c)) = Returned c' →
  crawling c → crawling c'.
Proof.
  intros Hq Hrun [Hnd Hin].
  destruct (visited_popped c a st rest Hq) as [Hv1 Hv].
  set (c1 := log_msg (Analyzing a) _) in *.
  assert (crawling c1) as Hc1.
  { split; [by rewrite Hv1, <- Hv|]. rewrite Hv1, <- Hv. exact Hin. }
  unfold analyze in Hrun. fold c1 in Hrun.
  destruct (sim_block a st) as [e|s].
  - assert (c' = log_msg (SomethingWrong a) c1) as ->
      by (by destruct e; simplify_eq).
    eapply crawling_same_worklist; [|exact Hc1].
    by apply log_msg_same_worklist.
  - injection Hrun as <-.
    assert (tidy (track_block perm a s c1)) as [? ?].
    { destruct Hc1 as [Hnd1 Hin1]. apply track_block_tidy; [done|].
      intros x Hx. destruct Hin1 as [Hin1|Hlen]; [left; by apply Hin1|].
      right. rewrite Hv1 in Hx, Hlen.
      destruct (analyzed (crawl_log c)) as [|y l]; simpl in *.
      - destruct rest; simpl in *; [|lia]. set_solver.
      - destruct l; simpl in *; lia. }
    split; [done|by left].
Qed.

Lemma make_refs_iter_crawling n (c c' : crawl State) :
  make_refs_iter sim_block perm n c = Returned c' → crawling c → crawling c'.
Proof.
  revert c. induction n as [|n IH]; intros c Hrun Hc.
  - simpl in Hrun. by injection Hrun as <-.
  - simpl in Hrun. destruct (remaining_addrs c) as [|[a st] rest] eqn:Hq.
    + by injection Hrun as <-.
    + destruct (analyze _ _ _ _ _) as [c1| |] eqn:Ha; try done.
      simpl in Hrun. apply (IH c1); [done|].
      by eapply analyze_crawling.
Qed.

(** A crawl that ends is a crawl so far. *)
Lemma make_refs_loop_iter fuel (c c' : crawl State) :
  make_refs_loop sim_block perm fuel c = Returned c' →
  make_refs_iter sim_block perm fuel c = Returned c'.
Proof.
  revert c. induction fuel as [|fuel IH]; intros c Hrun.
  - simpl in *. by destruct (remaining_addrs c) as [|[a st] rest].
  - simpl in *. destruct (remaining_addrs c) as [|[a st] rest]; [done|].
    destruct (analyze _ _ _ _ _) as [c1| |]; try done.
    simpl in *. by apply IH.
Qed.

(** C4: at any point of a crawl, the addresses that [sim_block] was
    called on and those that wait in the worklist are pairwise distinct:
    no address is analyzed twice, none is queued twice, and none that was
    analyzed, with or without success, is queued again. This holds for
    the entry address as for the others. *)
Theorem no_address_analyzed_twice n entry (st0 : State) (c : crawl State) :
  make_refs_prefix sim_block perm n entry st0 = Returned c →
  NoDup (analyzed (crawl_log c) ++ (remaining_addrs c).*1).
Proof.
  intros Hrun. apply make_refs_iter_crawling in Hrun as [Hnd _]; [done|].
  apply crawling_start.
Qed.

(** The same for a crawl that ends. *)
Corollary make_refs_analyzed_once fuel entry (st0 : State) (c : crawl State) :
  make_refs sim_block perm fuel entry st0 = Returned c →
  NoDup (analyzed (crawl_log c)).
Proof.
  intros Hrun. apply make_refs_loop_iter in Hrun.
  apply make_refs_iter_crawling in Hrun as [Hnd _]; [|apply crawling_start].
  by apply NoDup_app in Hnd as [? _].
Qed.

End Worklist.

Lemma no_address_analyzed_twice_witness :
  ∃ c, make_refs_prefix loop_program loop_perm 2 0x1000 tt = Returned c
       ∧ NoDup (analyzed (crawl_log c) ++ (remaining_addrs c).*1).
Proof.
  eexists. split; [vm_compute; reflexivity|].
  eapply (no_address_analyzed_twice loop_program loop_perm 2 0x1000 tt).
  vm_compute. reflexivity.
Defined.

(** The crawl of the loop: three addresses, each analyzed once; the one
    that cannot be lifted, [0x2000], stays in the discovered set. *)
Example loop_program_crawl :
  match make_refs loop_program loop_perm 4 0x1000 tt with
  | Returned c =>
      analyzed (crawl_log c) = [0x1000; 0x3000; 0x2000]
      ∧ sim_blocks c = {[ 0x1000; 0x2000; 0x3000 ]}
      ∧ refs c memory_refs_to !! 0x5000 = Some [Addr 0x1004]
      ∧ refs c code_refs_to !! 0x2000
        = Some [Addr 0x1010; Addr 0x1018; Addr 0x3008]
  | _ => False
  end.
Proof. vm_compute. repeat split; reflexivity. Qed.

Example jump_program_crawl :
  match make_refs jump_program ∅ 3 0x1000 tt with
  | Returned c =>
      refs c code_refs_from = {[ 0x1000 := [Addr 0x2000] ]}
      ∧ refs c code_refs_to = {[ 0x2000 := [Addr 0x1000] ]}
      ∧ analyzed (crawl_log c) = [0x1000; 0x2000]
  | _ => False
  end.
Proof. vm_compute. repeat split; reflexivity. Qed.

(** ** Failures of [sim_block] *)

Section Failures.
Context {State : Type}.
Variable sim_block : Z → State → exn + SimIRSB.t State.
Variable perm : gmap Z Z.

(** [U] holds the targets of the code references of all blocks. *)
Variable U : gset Z.
Hypothesis code_refs_in_U : ∀ a st s r t,
  sim_block a st = inr s → r ∈ SimIRSB.code_refs s →
  SimRef.addr r = Concrete t → t ∈ U.

(** [sim_block] raises nothing but what the loop catches. *)
Hypothesis only_caught : ∀ a st e,
  sim_block a st = inl e → e = SimIRSBError ∨ e = AngrException.

Local Abbreviation V := (U ∪ dom perm).

Lemma measure_same_worklist (c c' : crawl State) :
  same_worklist c c' → crawl_measure V c' = crawl_measure V c.
Proof. intros (HS & HQ & _). unfold crawl_measure. by rewrite HS, HQ. Qed.

Lemma measure_enqueue t st (c : crawl State) :
  t ∈ V → t ∉ sim_blocks c →
  crawl_measure V (enqueue t st c) = crawl_measure V c.
Proof.
  intros HtV Ht. unfold crawl_measure. simpl.
  rewrite <- difference_difference_l_L.
  assert ({[ t ]} ⊆ V ∖ sim_blocks c) as Hsub by set_solver.
  rewrite size_difference by done. rewrite size_singleton.
  apply subseteq_size in Hsub. rewrite size_singleton in Hsub. lia.
Qed.

Lemma measure_track_code_ref st (c : crawl State) r :
  (∀ t, SimRef.addr r = Concrete t → t ∈ U) →
  crawl_measure V (track_code_ref st c r) = crawl_measure V c.
Proof.
  intros HU. unfold track_code_ref. destruct (SimRef.addr r) as [|t].
  - apply measure_same_worklist. by apply log_msg_same_worklist.
  - set (c1 := record code_refs_from _ _ _).
    assert (same_worklist c c1) as Hsame.
    { same_worklist_steps. }
    rewrite <- (measure_same_worklist c c1 Hsame).
    case_bool_decide; [|done].
    apply measure_enqueue; [|done]. apply elem_of_union_l. by apply HU.
Qed.

Lemma measure_track_memory_ref st (c : crawl State) r :
  crawl_measure V (track_memory_ref perm st c r) = crawl_measure V c.
Proof.
  unfold track_memory_ref. destruct (SimRef.addr r) as [|t].
  - apply measure_same_worklist. by apply log_msg_same_worklist.
  - set (c1 := record memory_refs_from _ _ _).
    assert (same_worklist c c1) as Hsame.
    { same_worklist_steps. }
    rewrite <- (measure_same_worklist c c1 Hsame).
    destruct (bool_decide (t ∉ sim_blocks c1)) eqn:Hnew; simpl.
    + apply bool_decide_eq_true in Hnew.
      destruct (bool_decide (t ∈ dom perm)) eqn:Hdom; simpl.
      * apply bool_decide_eq_true in Hdom.
        destruct (from_option executable false (perm !! t)).
        -- rewrite measure_enqueue; [|by apply elem_of_union_r|done].
           apply measure_same_worklist. by apply log_msg_same_worklist.
        -- apply measure_same_worklist.
           destruct (bool_decide (t ∉ dom perm));
             by apply log_msg_same_worklist.
      * apply measure_same_worklist.
        destruct (bool_decide (t ∉ dom perm)); by apply log_msg_same_worklist.
    + apply measure_same_worklist.
      destruct (bool_decide (t ∉ dom perm)); by apply log_msg_same_worklist.
Qed.

Lemma measure_fold (f : crawl State → SimRef.t → crawl State) c rs :
  (∀ c r, r ∈ rs → crawl_measure V (f c r) = crawl_measure V c) →
  crawl_measure V (foldl f c rs) = crawl_measure V c.
Proof.
  revert c. induction rs as [|r rs IH]; intros c Hf; [done|].
  simpl. rewrite IH; [apply Hf; by left|].
  intros c' r' Hr'. apply Hf. by right.
Qed.

Lemma measure_track_block a st s (c : crawl State) :
  sim_block a st = inr s →
  (crawl_measure V (track_block perm a s c) ≤ crawl_measure V c)%nat.
Proof.
  intros Hs. unfold track_block.
  rewrite measure_fold by (intros; apply measure_track_memory_ref).
  rewrite measure_fold
    by (intros c' r Hr; apply measure_track_code_ref; intros t Ht;
        by eapply code_refs_in_U).
  rewrite (measure_same_worklist _ _
             (fold_same_worklist _ _ _ track_write_same_worklist)).
  rewrite (measure_same_worklist _ _
             (fold_same_worklist _ _ _ track_read_same_worklist)).
  unfold crawl_measure. simpl.
  assert (size (V ∖ (sim_blocks c ∪ {[ a ]})) ≤ size (V ∖ sim_blocks c))%nat
    by (apply subseteq_size; set_solver).
  lia.
Qed.

(** One iteration returns and brings the measure down. *)
Lemma analyze_measure (c : crawl State) a st rest :
  remaining_addrs c = (a, st) :: rest →
  ∃ c', analyze sim_block perm a st
                (mkCrawl (sim_blocks c) rest (refs c) (crawl_log c))
        = Returned c'
        ∧ (crawl_measure V c' < crawl_measure V c)%nat.
Proof.
  intros Hq. unfold analyze.
  set (c1 := log_msg (Analyzing a) _).
  assert (S (crawl_measure V c1) = crawl_measure V c) as Hpop
    by (unfold crawl_measure; rewrite Hq; simpl; lia).
  destruct (sim_block a st) as [e|s] eqn:Hs.
  - exists (log_msg (SomethingWrong a) c1). split.
    + by destruct (only_caught a st e Hs) as [-> | ->].
    + rewrite (measure_same_worklist c1) by (by apply log_msg_same_worklist).
      lia.
  - eexists. split; [done|].
    pose proof (measure_track_block a st s c1 Hs). lia.
Qed.

(** With fuel for the measure, the loop returns, its worklist empty. *)
Lemma make_refs_loop_returns fuel (c : crawl State) :
  (crawl_measure V c ≤ fuel)%nat →
  ∃ c', make_refs_loop sim_block perm fuel c = Returned c'
        ∧ remaining_addrs c' = [].
Proof.
  revert c. induction fuel as [|fuel IH]; intros c Hfuel.
  - simpl. destruct (remaining_addrs c) as [|[a st] rest] eqn:Hq; [by eauto|].
    unfold crawl_measure in Hfuel. rewrite Hq in Hfuel. simpl in Hfuel. lia.
  - simpl. destruct (remaining_addrs c) as [|[a st] rest] eqn:Hq; [by eauto|].
    destruct (analyze_measure c a st rest Hq) as (c1 & -> & Hlt).
    simpl. apply IH. lia.
Qed.


End Failures.


Example loop_program_failure :
  match make_refs loop_program loop_perm 5 0x1000 tt with
  | Returned c =>
      SomethingWrong 0x2000 ∈ crawl_log c
      ∧ refs c code_refs_from !! 0x2000 = None
      ∧ remaining_addrs c = []
  | _ => False
  end.
Proof. vm_compute. repeat split. set_solver. Qed.

(** ** The loop of [load_libs] *)

Section LoadLibsLoop.
Context {SimProcedure : Type}.
Variable fs : gmap string Binary.t.
Variable pop : gset string → string.
Hypothesis pop_elem : ∀ s, s ≠ ∅ → pop s ∈ s.

Local Abbreviation body := (@load_libs_body SimProcedure fs pop).
Local Abbreviation loop := (@load_libs_loop SimProcedure fs pop).

(** More fuel gives the same result. *)
Lemma load_libs_loop_mono fuel fuel' st st' :
  (fuel ≤ fuel')%nat → loop fuel st = Returned st' → loop fuel' st = Returned st'.
Proof.
  revert fuel' st. induction fuel as [|fuel IH]; intros fuel' st Hle Hrun.
  - simpl in Hrun. case_bool_decide as Hempty; [|done].
    destruct fuel'; simpl; by rewrite bool_decide_eq_true_2.
  - simpl in Hrun. destruct fuel' as [|fuel']; [lia|]. simpl.
    case_bool_decide; [done|]. apply IH; [lia|done].
Qed.

(** What the body keeps, the loop keeps, and the loop ends with nothing
    remaining. *)
Lemma load_libs_loop_inv (I : loader SimProcedure → Prop) fuel st st' :
  (∀ st, I st → remaining_libs st ≠ ∅ → I (body st)) →
  I st → loop fuel st = Returned st' → I st' ∧ remaining_libs st' = ∅.
Proof.
  intros Hbody. revert st. induction fuel as [|fuel IH]; intros st Hst Hrun.
  - simpl in Hrun. case_bool_decide; [|done]. by injection Hrun as <-.
  - simpl in Hrun. case_bool_decide as Hempty; [by injection Hrun as <-|].
    apply (IH (body st)); [by apply Hbody|done].
Qed.

(** The two cases of the body. *)
Lemma load_libs_body_cases st :
  let lib := pop (remaining_libs st) in
  (∃ new_lib,
     (lib ∉ done_libs st) ∧ fs !! lib = Some new_lib
     ∧ body st =
       let delta := find_delta (set_binary lib new_lib (project st)) new_lib in
       let img := Binary.rebase delta new_lib in
       mkLoader
         (set_envelope
            (Z.min (min_addr (project st)) (Binary.min_addr img))
            (Z.max (max_addr (project st)) (Binary.max_addr img))
            (set_binary lib img (set_binary lib new_lib (project st))))
         (remaining_libs st ∖ {[ lib ]}
            ∪ list_to_set (Binary.get_lib_names new_lib))
         (done_libs st ∪ {[ lib ]})
         ((loader_log st ++ [LoadingLib lib]) ++ [RebasingLib lib delta]))
  ∨ ((lib ∈ done_libs st ∨ fs !! lib = None)
     ∧ body st = mkLoader (project st) (remaining_libs st ∖ {[ lib ]})
                          (done_libs st) (loader_log st)).
Proof.
  intros lib. unfold load_libs_body. fold lib.
  case_bool_decide as Hdone.
  - destruct (fs !! lib) as [new_lib|] eqn:Hfs.
    + left. exists new_lib. done.
    + right. split; [by right|done].
  - right. split; [|done]. by left.
Qed.

(** The loop ends: a library is loaded, and fewer files of the
    directory are left to load, or a name goes, and fewer remain. *)
Lemma load_libs_loop_ends st :
  ∃ n st', loop n st = Returned st'.
Proof.
  remember (size (dom fs ∖ done_libs st)) as k eqn:Hk.
  revert st Hk. induction k as [k IHk] using lt_wf_ind. intros st Hk.
  remember (size (remaining_libs st)) as m eqn:Hm.
  revert st Hk Hm. induction m as [m IHm] using lt_wf_ind. intros st Hk Hm.
  destruct (decide (remaining_libs st = ∅)) as [Hempty|Hne].
  { exists 0%nat, st. simpl. by rewrite bool_decide_eq_true_2. }
  pose proof (pop_elem _ Hne) as Hpop.
  assert (∃ n st', loop n (body st) = Returned st') as (n & st' & Hrun).
  { destruct (load_libs_body_cases st) as
      [(new_lib & Hdone & Hfs & ->)|(_ & ->)].
    - eapply (IHk _ _ _ eq_refl). Unshelve. subst k. simpl.
      apply subset_size. apply elem_of_dom_2 in Hfs. set_solver.
    - eapply (IHm _ _ _ _ eq_refl). Unshelve.
      + subst m. simpl. apply subset_size. set_solver.
      + done. }
  exists (S n), st'. simpl. by rewrite bool_decide_eq_false_2.
Qed.

Lemma loaded_snoc log e :
  loaded (log ++ [e])
  = loaded log ++ match e with LoadingLib lib => [lib] | _ => [] end.
Proof. unfold loaded. rewrite omap_app. by destruct e. Qed.

Lemma loading_body main st :
  loading fs main st → remaining_libs st ≠ ∅ → loading fs main (body st).
Proof.
  intros (Hnd & Hiff & Hdone & Hrem & Hmain & Hdeps) Hne.
  pose proof (pop_elem _ Hne) as Hpop.
  destruct (load_libs_body_cases st) as
    [(new_lib & Hnew & Hfs & ->)|(Hskip & ->)]; unfold loading; simpl.
  - set (lib := pop (remaining_libs st)) in *.
    rewrite !loaded_snoc. cbn [app]. rewrite app_nil_r.
    split; [|split; [|split; [|split; [|split]]]].
    + apply NoDup_app. split; [done|]. split; [|apply NoDup_singleton].
      intros x Hx ->%list_elem_of_singleton. by apply Hnew, Hiff.
    + intros x. rewrite elem_of_app, list_elem_of_singleton, Hiff. set_solver.
    + intros x [Hx| ->%elem_of_singleton]%elem_of_union; [by apply Hdone|].
      split; [by apply Hrem|by eexists].
    + intros x [Hx|Hx]%elem_of_union; [apply Hrem; set_solver|].
      apply elem_of_list_to_set in Hx.
      eapply referenced_lib; [by apply Hrem| |]; done.
    + intros x Hx. destruct (decide (x = lib)) as [->|Hxl]; [set_solver|].
      destruct (Hmain x Hx) as [?|[?|?]]; [left|right; left|right; right];
        set_solver.
    + intros m b x [Hm| ->%elem_of_singleton]%elem_of_union Hb Hx.
      * destruct (decide (x = lib)) as [->|Hxl]; [set_solver|].
        destruct (Hdeps m b x Hm Hb Hx) as [?|[?|?]];
          [left|right; left|right; right]; set_solver.
      * left. assert (b = new_lib) as -> by congruence.
        apply elem_of_union_r. by apply elem_of_list_to_set.
  - set (lib := pop (remaining_libs st)) in *.
    split; [done|]. split; [done|]. split; [done|].
    split; [intros x Hx; apply Hrem; set_solver|]. split.
    + intros x Hx. destruct (decide (x = lib)) as [->|Hxl]; [tauto|].
      destruct (Hmain x Hx) as [?|[?|?]]; [left; set_solver|tauto..].
    + intros m b x Hm Hb Hx.
      destruct (decide (x = lib)) as [->|Hxl]; [tauto|].
      destruct (Hdeps m b x Hm Hb Hx) as [?|[?|?]]; [left; set_solver|tauto..].
Qed.


End LoadLibsLoop.

Lemma first_element_elem (s : gset string) : s ≠ ∅ → first_element s ∈ s.
Proof.
  intros Hne. unfold first_element.
  destruct (elements s) as [|x l] eqn:Hel.
  - by apply elements_empty_inv, leibniz_equiv in Hel.
  - simpl. apply elem_of_elements. rewrite Hel. by left.
Qed.


(** The two libraries that exist are loaded, once each, and the cycle
    between them ends the loop all the same. *)
Example prog_dir_loaded :
  match load_libs prog_dir first_element 5 (@init string prog) with
  | Returned st =>
      loaded (loader_log st) = ["libA.so"; "libB.so"]
      ∧ dom (binaries (project st)) = {[ "prog"; "libA.so"; "libB.so" ]}
  | _ => False
  end.
Proof. vm_compute. split; reflexivity. Qed.

(** ** The ranges of the placed images *)

Lemma envelope_max_snoc m0 imgs b :
  envelope_max m0 (imgs ++ [b]) = Z.max (envelope_max m0 imgs) (Binary.max_addr b).
Proof. unfold envelope_max. by rewrite foldl_snoc. Qed.

Lemma envelope_max_ge m0 imgs :
  m0 ≤ envelope_max m0 imgs
  ∧ ∀ b, b ∈ imgs → Binary.max_addr b ≤ envelope_max m0 imgs.
Proof.
  induction imgs as [|b imgs IH] using rev_ind.
  - split; [done|]. intros b Hb. by apply elem_of_nil in Hb.
  - rewrite envelope_max_snoc. destruct IH as [IH0 IH]. split; [lia|].
    intros b' [Hb'| ->%list_elem_of_singleton]%elem_of_app; [|lia].
    specialize (IH b' Hb'). lia.
Qed.

(** The first multiple of the granularity above [m], plus an offset
    below the granularity, is above [m]. *)
Lemma next_slot_above (m lo : Z) :
  m < granularity * ((m + granularity) / granularity) + lo mod granularity.
Proof.
  pose proof granularity_pos as Hg.
  pose proof (Z.mod_pos_bound lo granularity Hg).
  pose proof (Z.mod_pos_bound (m + granularity) granularity Hg).
  pose proof (Z.div_mod (m + granularity) granularity).
  lia.
Qed.

Lemma placed_snoc fs log e :
  placed fs (log ++ [e])
  = placed fs log
    ++ match e with
       | RebasingLib lib delta =>
           match fs !! lib with
           | Some b => [(lib, Binary.rebase delta b)]
           | None => []
           end
       | _ => []
       end.
Proof.
  unfold placed. rewrite omap_app. f_equal.
  destruct e; try done. simpl. by destruct (fs !! lib).
Qed.

Section Placement.
Context {SimProcedure : Type}.
Variable fs : gmap string Binary.t.
Variable pop : gset string → string.

Lemma placing_body m0 (st : loader SimProcedure) :
  placing fs m0 st → placing fs m0 (load_libs_body fs pop st).
Proof.
  intros (Hreg & Henv & Hstart).
  destruct (load_libs_body_cases fs pop st) as
    [(new_lib & Hnew & Hfs & ->)|(Hskip & ->)]; [|done].
  set (lib := pop (remaining_libs st)) in *.
  unfold placing. cbn [loader_log project done_libs].
  rewrite !placed_snoc, Hfs. cbn [app]. rewrite app_nil_r.
  set (imgs := placed fs (loader_log st)) in *.
  set (p1 := set_binary lib new_lib (project st)).
  set (img := Binary.rebase (find_delta p1 new_lib) new_lib).
  split; [|split].
  - intros lib' B [HB|[= -> ->]%list_elem_of_singleton]%elem_of_app.
    + destruct (Hreg lib' B HB) as [Hdone Hbin].
      split; [set_solver|]. simpl.
      rewrite !lookup_insert_ne by (intros ->; by apply Hnew). done.
    + split; [set_solver|]. simpl. apply lookup_insert_eq.
  - rewrite fmap_app. change ([(lib, img)].*2) with [img].
    rewrite envelope_max_snoc. simpl. by rewrite Henv.
  - intros j lib' B Hj.
    destruct (decide (j < length imgs)%nat) as [Hlt|Hge].
    + rewrite lookup_app_l in Hj by done.
      rewrite take_app_le by lia. by apply Hstart.
    + rewrite lookup_app_r in Hj by lia.
      destruct (j - length imgs)%nat as [|k] eqn:Hk; [|done].
      assert (j = length imgs) as -> by lia.
      simpl in Hj. injection Hj as <- <-.
      rewrite take_app_length. exists new_lib. split; [done|].
      unfold img. rewrite find_delta_new_start. subst p1. simpl.
      by rewrite Henv.
Qed.

(** C2, amended: for the images that [load_libs] places, in the order
    in which it places them: each is registered under its name; it
    starts at [granularity * floor ((global_max + granularity) /
    granularity) + original_min mod granularity], where [global_max] is
    the end of the envelope of the image of the project and of the
    images placed before; this start is strictly above the envelope the
    project had and strictly above the end of every image placed before,
    so that the ranges of two placed images are disjoint. *)
Theorem placed_ranges_disjoint (p : Project SimProcedure) fuel st :
  load_libs fs pop fuel p = Returned st →
  ∀ j lib B,
    placed fs (loader_log st) !! j = Some (lib, B) →
    binaries (project st) !! lib = Some B
    ∧ (∃ orig,
         fs !! lib = Some orig
         ∧ Binary.min_addr B
           = granularity
             * ((envelope_max (max_addr p)
                   (take j (placed fs (loader_log st))).*2 + granularity)
                / granularity)
             + Binary.min_addr orig mod granularity)
    ∧ max_addr p < Binary.min_addr B
    ∧ ∀ i libA A,
        (i < j)%nat → placed fs (loader_log st) !! i = Some (libA, A) →
        Binary.max_addr A < Binary.min_addr B
        ∧ ∀ x, Binary.min_addr A ≤ x ≤ Binary.max_addr A →
               ¬ (Binary.min_addr B ≤ x ≤ Binary.max_addr B).
Proof.
  unfold load_libs. destruct (binaries p !! filename p) as [main|]; [|done].
  intros Hrun.
  apply (load_libs_loop_inv fs pop (placing fs (max_addr p))) in Hrun
    as [(Hreg & Henv & Hstart) _].
  2:{ intros st1 Hst1 _. by apply placing_body. }
  2:{ unfold placing. simpl. split; [|done].
      intros lib B HB. by apply elem_of_nil in HB. }
  intros j lib B Hj.
  destruct (Hstart j lib B Hj) as (orig & Horig & Hmin).
  split; [apply Hreg; by eapply list_elem_of_lookup_2|].
  split; [by exists orig|].
  set (imgs := placed fs (loader_log st)) in *.
  pose proof (envelope_max_ge (max_addr p) (take j imgs).*2) as [Hge0 Hge].
  pose proof (next_slot_above (envelope_max (max_addr p) (take j imgs).*2)
                (Binary.min_addr orig)) as Habove.
  rewrite <- Hmin in Habove. split; [lia|].
  intros i libA A Hij Hi.
  assert (A ∈ (take j imgs).*2) as HA.
  { apply list_elem_of_fmap. exists (libA, A). split; [done|].
    apply list_elem_of_lookup. exists i. by rewrite lookup_take_lt. }
  specialize (Hge A HA). split; [lia|]. intros x Hx. lia.
Qed.

End Placement.

Lemma placed_ranges_disjoint_witness :
  ∃ st,
    load_libs prog_dir first_element 5 (@init string prog) = Returned st
    ∧ ∀ j lib B,
        placed prog_dir (loader_log st) !! j = Some (lib, B) →
        binaries (project st) !! lib = Some B
        ∧ (∃ orig,
             prog_dir !! lib = Some orig
             ∧ Binary.min_addr B
               = granularity
                 * ((envelope_max (max_addr (@init string prog))
                       (take j (placed prog_dir (loader_log st))).*2
                     + granularity) / granularity)
                 + Binary.min_addr orig mod granularity)
        ∧ max_addr (@init string prog) < Binary.min_addr B
        ∧ ∀ i libA A,
            (i < j)%nat →
            placed prog_dir (loader_log st) !! i = Some (libA, A) →
            Binary.max_addr A < Binary.min_addr B
            ∧ ∀ x, Binary.min_addr A ≤ x ≤ Binary.max_addr A →
                   ¬ (Binary.min_addr B ≤ x ≤ Binary.max_addr B).
Proof.
  eexists. split; [vm_compute; reflexivity|].
  apply (placed_ranges_disjoint prog_dir first_element (@init string prog) 5).
  vm_compute. reflexivity.
Defined.

(** ["libA.so"] is placed at [0x1000000 .. 0x27fffff]; ["libB.so"] is
    then placed at [0x3000000], which is less than a granularity above
    the end of ["libA.so"], and is not the start that rounding up
    [(global_max + granularity) / granularity] gives, [0x4000000]. *)
Lemma headroom_counterexample :
  match load_libs prog_dir first_element 5 (@init string prog) with
  | Returned st =>
      ∃ A B,
        placed prog_dir (loader_log st) = [("libA.so", A); ("libB.so", B)]
        ∧ (Binary.min_addr A, Binary.max_addr A) = (0x1000000, 0x27fffff)
        ∧ (Binary.min_addr B, Binary.max_addr B) = (0x3000000, 0x3000fff)
        ∧ ¬ (Binary.max_addr A + granularity ≤ Binary.min_addr B)
        ∧ Binary.min_addr B
          ≠ round_up (envelope_max (Binary.max_addr prog) [A] + granularity)
                     granularity
            + Binary.min_addr libB mod granularity
  | _ => False
  end.
Proof.
  vm_compute (load_libs _ _ _ _).
  eexists _, _. split; [vm_compute; reflexivity|].
  split; [reflexivity|]. split; [reflexivity|]. split.
  - vm_compute. intros Hle. by apply Hle.
  - vm_compute. discriminate.
Qed.

(** * Further properties *)

(** ** Where [find_delta] puts an image *)

(** The rebased image starts above the envelope, by less than two
    granularities, and on a multiple of the granularity when the image
    was loaded on one. *)
Theorem find_delta_gap {SimProcedure : Type} (p : Project SimProcedure)
    (lib : Binary.t) :
  let start := Binary.min_addr (Binary.rebase (find_delta p lib) lib) in
  max_addr p < start < max_addr p + 2 * granularity
  ∧ (Binary.min_addr lib mod granularity = 0 → start mod granularity = 0)
  ∧ Binary.max_addr (Binary.rebase (find_delta p lib) lib) - start
    = Binary.max_addr lib - Binary.min_addr lib.
Proof.
  intros start. subst start. rewrite find_delta_new_start.
  pose proof granularity_pos as Hg.
  pose proof (Z.mod_pos_bound (Binary.min_addr lib) granularity Hg).
  pose proof (Z.mod_pos_bound (max_addr p + granularity) granularity Hg).
  pose proof (Z.div_mod (max_addr p + granularity) granularity).
  split; [lia|]. split.
  - intros ->. rewrite Z.add_0_r, Z.mul_comm. by apply Z_mod_mult.
  - unfold find_delta. simpl. lia.
Qed.

Lemma find_delta_gap_witness :
  let p := @init string prog in
  let start := Binary.min_addr (Binary.rebase (find_delta p libA) libA) in
  max_addr p < start < max_addr p + 2 * granularity
  ∧ (Binary.min_addr libA mod granularity = 0 → start mod granularity = 0)
  ∧ Binary.max_addr (Binary.rebase (find_delta p libA) libA) - start
    = Binary.max_addr libA - Binary.min_addr libA.
Proof. exact (find_delta_gap (@init string prog) libA). Defined.

(** ** What [load_libs] leaves in the project *)

Section LoadLibsProject.
Context {SimProcedure : Type}.
Variable fs : gmap string Binary.t.
Variable pop : gset string → string.

(** The envelope only grows, and covers every placed image. *)
Theorem load_libs_envelope (p : Project SimProcedure) fuel st :
  load_libs fs pop fuel p = Returned st →
  min_addr (project st) ≤ min_addr p
  ∧ max_addr p ≤ max_addr (project st)
  ∧ ∀ lib B, (lib, B) ∈ placed fs (loader_log st) →
             min_addr (project st) ≤ Binary.min_addr B
             ∧ Binary.max_addr B ≤ max_addr (project st).
Proof.
  unfold load_libs. destruct (binaries p !! filename p) as [main|]; [|done].
  intros Hrun.
  apply (load_libs_loop_inv fs pop (λ st,
           min_addr (project st) ≤ min_addr p
           ∧ max_addr p ≤ max_addr (project st)
           ∧ ∀ lib B, (lib, B) ∈ placed fs (loader_log st) →
                      min_addr (project st) ≤ Binary.min_addr B
                      ∧ Binary.max_addr B ≤ max_addr (project st)))
    in Hrun as [Hinv _]; [done| |].
  - clear. intros st (Hmin & Hmax & Hcov) _.
    destruct (load_libs_body_cases fs pop st) as
      [(new_lib & Hnew & Hfs & ->)|(Hskip & ->)]; [|done].
    cbn [project loader_log set_envelope set_binary min_addr max_addr].
    rewrite !placed_snoc, Hfs. cbn [app]. rewrite app_nil_r.
    split; [lia|]. split; [lia|].
    intros lib B [HB|[= -> ->]%list_elem_of_singleton]%elem_of_app; [|lia].
    destruct (Hcov lib B HB). lia.
  - simpl. split; [done|]. split; [done|].
    intros lib B HB. by apply elem_of_nil in HB.
Qed.

Lemma load_libs_keeps (p : Project SimProcedure) fuel st :
  load_libs fs pop fuel p = Returned st →
  filename (project st) = filename p
  ∧ entry (project st) = entry p
  ∧ sim_procedures (project st) = sim_procedures p
  ∧ (∀ n, n ∉ loaded (loader_log st) →
          binaries (project st) !! n = binaries p !! n)
  ∧ (∀ n, n ∈ loaded (loader_log st) →
          ∃ orig delta, fs !! n = Some orig
                        ∧ binaries (project st) !! n
                          = Some (Binary.rebase delta orig))
  ∧ dom (binaries (project st))
    = dom (binaries p) ∪ list_to_set (loaded (loader_log st)).
Proof.
  unfold load_libs. destruct (binaries p !! filename p) as [main|]; [|done].
  intros Hrun.
  apply (load_libs_loop_inv fs pop (λ st,
           (filename (project st) = filename p
            ∧ entry (project st) = entry p
            ∧ sim_procedures (project st) = sim_procedures p
            ∧ (∀ n, n ∉ loaded (loader_log st) →
                    binaries (project st) !! n = binaries p !! n)
            ∧ (∀ n, n ∈ loaded (loader_log st) →
                    ∃ orig delta, fs !! n = Some orig
                                  ∧ binaries (project st) !! n
                                    = Some (Binary.rebase delta orig))
            ∧ dom (binaries (project st))
              = dom (binaries p) ∪ list_to_set (loaded (loader_log st)))
           ∧ ∀ n, n ∈ loaded (loader_log st) → n ∈ done_libs st))
    in Hrun as [[Hinv _] _]; [done| |].
  - clear. intros st ((Hf & He & Hs & Hold & Hnew' & Hdom) & Hdone) _.
    destruct (load_libs_body_cases fs pop st) as
      [(new_lib & Hnew & Hfs & ->)|(Hskip & ->)]; [|done].
    set (lib := pop (remaining_libs st)) in *.
    cbn [project loader_log done_libs set_envelope set_binary binaries
         filename entry sim_procedures].
    rewrite !loaded_snoc. cbn [app]. rewrite app_nil_r.
    split; [|intros n [Hn| ->%list_elem_of_singleton]%elem_of_app;
             [apply elem_of_union_l; by apply Hdone|set_solver]].
    split; [done|]. split; [done|]. split; [done|]. split; [|split].
    + intros n Hn. rewrite not_elem_of_app, list_elem_of_singleton in Hn.
      destruct Hn as [Hn Hne]. rewrite !lookup_insert_ne by done.
      by apply Hold.
    + intros n [Hn| ->%list_elem_of_singleton]%elem_of_app.
      * rewrite !lookup_insert_ne by (intros ->; by apply Hnew, Hdone).
        by apply Hnew'.
      * exists new_lib. eexists. split; [done|]. apply lookup_insert_eq.
    + rewrite !dom_insert_L, Hdom, list_to_set_app_L. set_solver.
  - simpl. split; [|by intros n Hn%elem_of_nil].
    split; [done|]. split; [done|]. split; [done|]. split; [done|].
    split; [by intros n Hn%elem_of_nil|]. set_solver.
Qed.

(** The file name, the entry and the stubs are as they were; so is
    what is registered under a name that was not loaded; a loaded name
    holds the image of its file, rebased; and the names registered are
    those that were, and the loaded ones. *)
Theorem load_libs_frame (p : Project SimProcedure) fuel st :
  load_libs fs pop fuel p = Returned st →
  filename (project st) = filename p
  ∧ entry (project st) = entry p
  ∧ sim_procedures (project st) = sim_procedures p
  ∧ (∀ n, n ∉ loaded (loader_log st) →
          binaries (project st) !! n = binaries p !! n)
  ∧ (∀ n, n ∈ loaded (loader_log st) →
          ∃ orig delta, fs !! n = Some orig
                        ∧ binaries (project st) !! n
                          = Some (Binary.rebase delta orig))
  ∧ dom (binaries (project st))
    = dom (binaries p) ∪ list_to_set (loaded (loader_log st)).
Proof. apply load_libs_keeps. Qed.

End LoadLibsProject.

Lemma load_libs_envelope_witness :
  ∃ st,
    load_libs prog_dir first_element 5 (@init string prog) = Returned st
    ∧ min_addr (project st) ≤ min_addr (@init string prog)
    ∧ max_addr (@init string prog) ≤ max_addr (project st)
    ∧ ∀ lib B, (lib, B) ∈ placed prog_dir (loader_log st) →
               min_addr (project st) ≤ Binary.min_addr B
               ∧ Binary.max_addr B ≤ max_addr (project st).
Proof.
  eexists. split; [vm_compute; reflexivity|].
  apply (load_libs_envelope prog_dir first_element (@init string prog) 5).
  vm_compute. reflexivity.
Defined.

Lemma load_libs_frame_witness :
  ∃ st,
    load_libs prog_dir first_element 5 (@init string prog) = Returned st
    ∧ filename (project st) = filename (@init string prog)
    ∧ entry (project st) = entry (@init string prog)
    ∧ sim_procedures (project st) = sim_procedures (@init string prog)
    ∧ (∀ n, n ∉ loaded (loader_log st) →
            binaries (project st) !! n = binaries (@init string prog) !! n)
    ∧ (∀ n, n ∈ loaded (loader_log st) →
            ∃ orig delta, prog_dir !! n = Some orig
                          ∧ binaries (project st) !! n
                            = Some (Binary.rebase delta orig))
    ∧ dom (binaries (project st))
      = dom (binaries (@init string prog))
        ∪ list_to_set (loaded (loader_log st)).
Proof.
  eexists. split; [vm_compute; reflexivity|].
  apply (load_libs_frame prog_dir first_element (@init string prog) 5).
  vm_compute. reflexivity.
Defined.

(** ** No two images overlap *)

Section Overlap.
Context {SimProcedure : Type}.
Variable fs : gmap string Binary.t.
Variable pop : gset string → string.

Lemma load_libs_placing (p : Project SimProcedure) fuel st :
  load_libs fs pop fuel p = Returned st → placing fs (max_addr p) st.
Proof.
  unfold load_libs. destruct (binaries p !! filename p) as [main|]; [|done].
  intros Hrun.
  apply (load_libs_loop_inv fs pop (placing fs (max_addr p))) in Hrun
    as [Hinv _]; [done| |].
  - intros st1 Hst1 _. by apply placing_body.
  - unfold placing. simpl. split; [|done].
    intros lib B HB. by apply elem_of_nil in HB.
Qed.

(** Each placed image starts above the first envelope and above the
    images placed before it. *)
Lemma placing_ordered m0 (st : loader SimProcedure) j lib B :
  placing fs m0 st →
  placed fs (loader_log st) !! j = Some (lib, B) →
  m0 < Binary.min_addr B
  ∧ ∀ i libA A, (i < j)%nat →
                placed fs (loader_log st) !! i = Some (libA, A) →
                Binary.max_addr A < Binary.min_addr B.
Proof.
  intros (Hreg & Henv & Hstart) Hj.
  destruct (Hstart j lib B Hj) as (orig & Horig & Hmin).
  set (imgs := placed fs (loader_log st)) in *.
  pose proof (envelope_max_ge m0 (take j imgs).*2) as [Hge0 Hge].
  pose proof (next_slot_above (envelope_max m0 (take j imgs).*2)
                (Binary.min_addr orig)) as Habove.
  rewrite <- Hmin in Habove. split; [lia|].
  intros i libA A Hij Hi.
  assert (A ∈ (take j imgs).*2) as HA.
  { apply list_elem_of_fmap. exists (libA, A). split; [done|].
    apply list_elem_of_lookup. exists i. by rewrite lookup_take_lt. }
  specialize (Hge A HA). lia.
Qed.

(** A loaded library has a placed image. *)
Lemma load_libs_loaded_placed (p : Project SimProcedure) fuel st n :
  load_libs fs pop fuel p = Returned st →
  n ∈ loaded (loader_log st) → ∃ B, (n, B) ∈ placed fs (loader_log st).
Proof.
  unfold load_libs. destruct (binaries p !! filename p) as [main|]; [|done].
  intros Hrun.
  apply (load_libs_loop_inv fs pop (λ st,
           ∀ n, n ∈ loaded (loader_log st) →
                ∃ B, (n, B) ∈ placed fs (loader_log st)))
    in Hrun as [Hinv _]; [by apply Hinv| |].
  - clear. intros st Hinv _.
    destruct (load_libs_body_cases fs pop st) as
      [(new_lib & Hnew & Hfs & ->)|(Hskip & ->)]; [|done].
    cbn [loader_log]. rewrite !loaded_snoc, !placed_snoc, Hfs.
    cbn [app]. rewrite !app_nil_r.
    intros m [Hm| ->%list_elem_of_singleton]%elem_of_app.
    + destruct (Hinv m Hm) as [B HB]. exists B. set_solver.
    + eexists. apply elem_of_app. right. by apply list_elem_of_singleton.
  - simpl. by intros m Hm%elem_of_nil.
Qed.

Lemma registered_images_disjoint main fuel (st : loader SimProcedure) :
  load_libs fs pop fuel (init main) = Returned st →
  ∀ n1 n2 b1 b2 x,
    n1 ≠ n2 →
    binaries (project st) !! n1 = Some b1 →
    binaries (project st) !! n2 = Some b2 →
    Binary.min_addr b1 ≤ x ≤ Binary.max_addr b1 →
    ¬ (Binary.min_addr b2 ≤ x ≤ Binary.max_addr b2).
Proof.
  intros Hrun.
  pose proof (load_libs_placing _ _ _ Hrun) as Hplacing.
  pose proof (load_libs_keeps fs pop _ _ _ Hrun) as (_ & _ & _ & Hold & _).
  assert (∀ n b, binaries (project st) !! n = Some b →
            (∃ j, placed fs (loader_log st) !! j = Some (n, b))
            ∨ (n = Binary.filename main ∧ b = main)) as Hwhich.
  { intros n b Hb. destruct (decide (n ∈ loaded (loader_log st))) as [Hn|Hn].
    - left. destruct (load_libs_loaded_placed _ _ _ n Hrun Hn) as [B HB].
      destruct Hplacing as (Hreg & _). destruct (Hreg n B HB) as [_ HB'].
      assert (B = b) as -> by congruence.
      by apply list_elem_of_lookup in HB.
    - right. rewrite (Hold n Hn) in Hb. simpl in Hb.
      by apply lookup_singleton_Some in Hb as [-> ->]. }
  assert (∀ j n b, placed fs (loader_log st) !! j = Some (n, b) →
            Binary.max_addr main < Binary.min_addr b) as Hmain.
  { intros j n b Hj. by destruct (placing_ordered _ _ _ _ _ Hplacing Hj). }
  intros n1 n2 b1 b2 x Hne Hb1 Hb2 Hx1 Hx2.
  destruct (Hwhich n1 b1 Hb1) as [[j1 Hj1]|[-> ->]];
    destruct (Hwhich n2 b2 Hb2) as [[j2 Hj2]|[-> ->]].
  - destruct (lt_eq_lt_dec j1 j2) as [[Hlt| ->]|Hlt].
    + destruct (placing_ordered _ _ _ _ _ Hplacing Hj2) as [_ Hord].
      specialize (Hord j1 n1 b1 Hlt Hj1). lia.
    + congruence.
    + destruct (placing_ordered _ _ _ _ _ Hplacing Hj1) as [_ Hord].
      specialize (Hord j2 n2 b2 Hlt Hj2). lia.
  - specialize (Hmain j1 n1 b1 Hj1). lia.
  - specialize (Hmain j2 n2 b2 Hj2). lia.
  - done.
Qed.

(** After [__init__] has loaded the libraries of the image [main], the
    ranges of two images registered under different names have no
    address in common. *)
Theorem images_do_not_overlap main fuel (st : loader SimProcedure) :
  load_libs fs pop fuel (init main) = Returned st →
  ∀ n1 n2 b1 b2 x,
    n1 ≠ n2 →
    binaries (project st) !! n1 = Some b1 →
    binaries (project st) !! n2 = Some b2 →
    Binary.min_addr b1 ≤ x ≤ Binary.max_addr b1 →
    ¬ (Binary.min_addr b2 ≤ x ≤ Binary.max_addr b2).
Proof. apply registered_images_disjoint. Qed.

End Overlap.

Lemma images_do_not_overlap_witness :
  ∃ st,
    load_libs prog_dir first_element 5 (@init string prog) = Returned st
    ∧ ∀ n1 n2 b1 b2 x,
        n1 ≠ n2 →
        binaries (project st) !! n1 = Some b1 →
        binaries (project st) !! n2 = Some b2 →
        Binary.min_addr b1 ≤ x ≤ Binary.max_addr b1 →
        ¬ (Binary.min_addr b2 ≤ x ≤ Binary.max_addr b2).
Proof.
  eexists. split; [vm_compute; reflexivity|].
  apply (images_do_not_overlap prog_dir first_element prog 5).
  vm_compute. reflexivity.
Defined.

(** ** [binary_by_addr] *)

Lemma first_containing_Some addr bs b :
  first_containing addr bs = Some b →
  b ∈ bs ∧ Binary.min_addr b ≤ addr ≤ Binary.max_addr b.
Proof.
  induction bs as [|b' bs IH]; [done|]. simpl. case_bool_decide as Hin.
  - intros [= <-]. split; [by left|done].
  - intros Hrest. destruct (IH Hrest). split; [by right|done].
Qed.

Lemma first_containing_None addr bs :
  first_containing addr bs = None ↔
  ∀ b, b ∈ bs → ¬ (Binary.min_addr b ≤ addr ≤ Binary.max_addr b).
Proof.
  induction bs as [|b' bs IH]; simpl.
  - split; [|done]. by intros _ b Hb%elem_of_nil.
  - case_bool_decide as Hin.
    + split; [done|]. intros Hall. destruct (Hall b'); [by left|done].
    + rewrite IH. split.
      * intros Hall b [->|Hb]%elem_of_cons; [done|by apply Hall].
      * intros Hall b Hb. apply Hall. by right.
Qed.

Section BinaryByAddr.
Context {SimProcedure : Type}.
Implicit Type p : Project SimProcedure.

Lemma binary_by_addr_found dict_values p addr :
  match binary_by_addr dict_values p addr with
  | Some b =>
      (∃ n, n ∈ dict_values (binaries p) ∧ binaries p !! n = Some b)
      ∧ Binary.min_addr b ≤ addr ≤ Binary.max_addr b
  | None =>
      ∀ n b, n ∈ dict_values (binaries p) → binaries p !! n = Some b →
             ¬ (Binary.min_addr b ≤ addr ≤ Binary.max_addr b)
  end.
Proof.
  unfold binary_by_addr.
  destruct (first_containing _ _) as [b|] eqn:Hfind.
  - apply first_containing_Some in Hfind as [Hb Hin]. split; [|done].
    apply list_elem_of_omap in Hb as (n & Hn & Hb). by exists n.
  - intros n b Hn Hb. rewrite first_containing_None in Hfind.
    apply Hfind. apply list_elem_of_omap. by exists n.
Qed.

(** The image that [binary_by_addr] returns is registered and contains
    the address; [None] is returned only when no image that the
    enumeration goes through contains it. *)
Theorem binary_by_addr_spec dict_values p addr :
  match binary_by_addr dict_values p addr with
  | Some b =>
      (∃ n, n ∈ dict_values (binaries p) ∧ binaries p !! n = Some b)
      ∧ Binary.min_addr b ≤ addr ≤ Binary.max_addr b
  | None =>
      ∀ n b, n ∈ dict_values (binaries p) → binaries p !! n = Some b →
             ¬ (Binary.min_addr b ≤ addr ≤ Binary.max_addr b)
  end.
Proof. apply binary_by_addr_found. Qed.

(** Once the libraries of [main] are loaded, the image found for an
    address does not depend on the order in which the dictionary is
    enumerated. *)
Theorem binary_by_addr_order_independent fs pop main fuel
    (st : loader SimProcedure) dict_values dict_values' addr :
  load_libs fs pop fuel (init main) = Returned st →
  (∀ n, n ∈ dict_values (binaries (project st))
        ↔ n ∈ dom (binaries (project st))) →
  (∀ n, n ∈ dict_values' (binaries (project st))
        ↔ n ∈ dom (binaries (project st))) →
  binary_by_addr dict_values (project st) addr
  = binary_by_addr dict_values' (project st) addr.
Proof.
  intros Hrun Hdv Hdv'.
  pose proof (registered_images_disjoint fs pop main fuel st Hrun) as Hdisj.
  pose proof (binary_by_addr_found dict_values (project st) addr) as H1.
  pose proof (binary_by_addr_found dict_values' (project st) addr) as H2.
  destruct (binary_by_addr dict_values _ _) as [b1|];
    destruct (binary_by_addr dict_values' _ _) as [b2|]; [| | |done].
  - destruct H1 as [(n1 & _ & Hb1) Hx1], H2 as [(n2 & _ & Hb2) Hx2].
    destruct (decide (n1 = n2)) as [->|Hne]; [congruence|].
    by destruct (Hdisj n1 n2 b1 b2 addr Hne Hb1 Hb2 Hx1).
  - destruct H1 as [(n1 & _ & Hb1) Hx1].
    destruct (H2 n1 b1); [|done..]. apply Hdv'. by eapply elem_of_dom_2.
  - destruct H2 as [(n2 & _ & Hb2) Hx2].
    destruct (H1 n2 b2); [|done..]. apply Hdv. by eapply elem_of_dom_2.
Qed.

End BinaryByAddr.

Lemma binary_by_addr_order_independent_witness :
  ∃ st,
    load_libs prog_dir first_element 5 (@init string prog) = Returned st
    ∧ binary_by_addr (λ m, elements (dom m)) (project st) 0x3000010
      = binary_by_addr (λ m, reverse (elements (dom m))) (project st) 0x3000010.
Proof.
  eexists. split; [vm_compute; reflexivity|].
  apply (binary_by_addr_order_independent prog_dir first_element prog 5).
  - vm_compute. reflexivity.
  - intros n. apply elem_of_elements.
  - intros n. rewrite elem_of_reverse. apply elem_of_elements.
Defined.

(** The image of ["libB.so"] is found at an address of its rebased
    range, and none below the main image. *)
Example binary_by_addr_example :
  match load_libs prog_dir first_element 5 (@init string prog) with
  | Returned st =>
      Binary.filename
        <$> binary_by_addr (λ m, elements (dom m)) (project st) 0x3000010
      = Some "libB.so"
      ∧ binary_by_addr (λ m, elements (dom m)) (project st) 0x1000 = None
  | _ => False
  end.
Proof. vm_compute. split; reflexivity. Qed.

(** ** What [resolve_imports_from_libs] changes *)

Lemma with_slots_id b : with_slots (Binary.resolved_imports b) b = b.
Proof. by destruct b. Qed.

Lemma patch_imports_with_slots resolved b log :
  (patch_imports resolved b log).1
  = with_slots (Binary.resolved_imports (patch_imports resolved b log).1) b.
Proof.
  unfold patch_imports.
  assert (∀ (l : list (string * list Z)) b1 (log1 : list log_event),
    b1 = with_slots (Binary.resolved_imports b1) b →
    let r := foldl (λ '(b, log) '(imp, _),
                      match resolved !! imp with
                      | Some a =>
                          (Binary.resolve_import imp a b,
                           log ++ [ResolvingImport imp (Binary.filename b) a])
                      | None =>
                          (b, log ++ [UnableToResolveImport imp
                                        (Binary.filename b)])
                      end) (b1, log1) l in
    r.1 = with_slots (Binary.resolved_imports r.1) b) as Hgen.
  { induction l as [|[imp sites] l IH]; intros b1 log1 Hb1; [done|].
    cbn [foldl]. destruct (resolved !! imp) as [a|]; apply IH; [|done].
    rewrite Hb1 at 1. done. }
  apply Hgen. by rewrite with_slots_id.
Qed.

(** The dictionary [resolved] depends on the tables only, not on the
    log. *)
Lemma resolve_exports_agree ln lib lib' r r' log log' :
  Binary.get_exports lib = Binary.get_exports lib' →
  Binary.symbol_addrs lib = Binary.symbol_addrs lib' →
  r = r' →
  (resolve_exports ln lib (r, log)).1 = (resolve_exports ln lib' (r', log')).1.
Proof.
  intros He Hs <-. apply map_eq. intros x.
  rewrite !resolve_exports_lookup. unfold Binary.get_symbol_addr.
  by rewrite He, Hs.
Qed.

Lemma collect_resolved_agree bins bins' b b' log log' :
  tables_agree bins bins' → same_tables b b' →
  (collect_resolved bins b log).1 = (collect_resolved bins' b' log').1.
Proof.
  intros Hagree (_ & Hlibs & _). unfold collect_resolved. rewrite <- Hlibs.
  generalize (Binary.get_lib_names b) as l. intros l.
  generalize (∅ : gmap string Z). revert log log'.
  induction l as [|ln l IH]; intros log log' r; [done|].
  cbn [foldl]. specialize (Hagree ln).
  destruct (bins !! ln) as [lib|], (bins' !! ln) as [lib'|];
    [|done|done|apply IH].
  destruct Hagree as (_ & _ & He & Hs & _).
  pose proof (resolve_exports_agree ln lib lib' r r log log' He Hs eq_refl)
    as Heq.
  destruct (resolve_exports ln lib (r, log)) as [r1 log1].
  destruct (resolve_exports ln lib' (r, log')) as [r2 log2].
  simpl in Heq. subst r2. apply IH.
Qed.

Lemma tables_agree_refl bins : tables_agree bins bins.
Proof. intros n. destruct (bins !! n); [apply same_tables_refl|done]. Qed.

Section ResolveFrame.
Context {SimProcedure : Type}.
Variable dict_values : gmap string Binary.t → list string.

(** What the loop keeps of every image: all but the slots of its
    imports, and the slots of the names it does not import. *)
Lemma resolve_fold_frame (bins0 : gmap string Binary.t) l acc :
  (∀ n, match bins0 !! n with
        | None => acc.1 !! n = None
        | Some b =>
            ∃ b', acc.1 !! n = Some b'
                  ∧ b' = with_slots (Binary.resolved_imports b') b
                  ∧ ∀ x, x ∉ (Binary.get_imports b).*1 →
                         Binary.resolved_imports b' !! x
                         = Binary.resolved_imports b !! x
        end) →
  ∀ n, match bins0 !! n with
       | None => (foldl (λ acc name, resolve_imports_of name acc) acc l).1 !! n
                 = None
       | Some b =>
           ∃ b', (foldl (λ acc name, resolve_imports_of name acc) acc l).1 !! n
                 = Some b'
                 ∧ b' = with_slots (Binary.resolved_imports b') b
                 ∧ ∀ x, x ∉ (Binary.get_imports b).*1 →
                        Binary.resolved_imports b' !! x
                        = Binary.resolved_imports b !! x
       end.
Proof.
  revert acc. induction l as [|name l IH]; intros acc Hacc; [done|].
  cbn [foldl]. apply IH. clear IH. intros n. specialize (Hacc n) as Hn.
  destruct acc as [bins log]. unfold resolve_imports_of.
  destruct (bins !! name) as [bcur|] eqn:Hcur; [|done].
  destruct (collect_resolved bins bcur log) as [resolved log1].
  destruct (patch_imports resolved bcur log1) as [b2 log2] eqn:Hpatch.
  pose proof (patch_imports_with_slots resolved bcur log1) as Hws.
  pose proof (patch_imports_spec resolved bcur log1) as (_ & Hri & _).
  rewrite Hpatch in Hws, Hri. cbn [fst snd] in *.
  destruct (decide (name = n)) as [->|Hne].
  - rewrite lookup_insert_eq. destruct (bins0 !! n) as [b|]; [|congruence].
    destruct Hn as (b' & Hb' & Heq & Hslots).
    assert (b' = bcur) as -> by congruence.
    assert (Binary.get_imports bcur = Binary.get_imports b) as Himps
      by (by rewrite Heq).
    exists b2. split; [done|]. split.
    + transitivity (with_slots (Binary.resolved_imports b2) bcur); [done|].
      by rewrite Heq.
    + intros x Hx. rewrite Hri, Himps.
      rewrite bool_decide_eq_false_2 by done. by apply Hslots.
  - rewrite lookup_insert_ne by done. exact Hn.
Qed.


End ResolveFrame.


(** ** Resolving twice *)

Lemma resolve_import_noop imp a b :
  Binary.resolved_imports b !! imp = Some a → Binary.resolve_import imp a b = b.
Proof.
  intros Hslot. destruct b. unfold Binary.resolve_import. simpl in *.
  by rewrite insert_id.
Qed.

(** Patching slots that hold their address already changes nothing. *)
Lemma patch_imports_noop resolved b log :
  (∀ x a, x ∈ (Binary.get_imports b).*1 → resolved !! x = Some a →
          Binary.resolved_imports b !! x = Some a) →
  (patch_imports resolved b log).1 = b.
Proof.
  unfold patch_imports.
  generalize (Binary.get_imports b) as l. intros l. revert log.
  induction l as [|[imp sites] l IH]; intros log Hset; [done|].
  cbn [foldl]. destruct (resolved !! imp) as [a|] eqn:Himp.
  - rewrite resolve_import_noop by (apply Hset; [set_solver|done]).
    apply IH. intros x a' Hx. apply Hset. set_solver.
  - apply IH. intros x a' Hx. apply Hset. set_solver.
Qed.

Section ResolveTwice.
Context {SimProcedure : Type}.
Variable dict_values : gmap string Binary.t → list string.

(** The slots of the imports of [b0] hold what [resolved] gives. *)
Local Abbreviation slots_set bins0 b0 b :=
  (∀ x a, x ∈ (Binary.get_imports b0).*1 → resolved_of bins0 b0 !! x = Some a →
          Binary.resolved_imports b !! x = Some a).

Lemma resolve_fold_slots_set (bins0 : gmap string Binary.t) l seen acc :
  resolving bins0 seen acc →
  (∀ n b0, n ∈ seen → bins0 !! n = Some b0 →
           ∃ b, acc.1 !! n = Some b ∧ slots_set bins0 b0 b) →
  let acc' := foldl (λ acc name, resolve_imports_of name acc) acc l in
  resolving bins0 (seen ++ l) acc'
  ∧ ∀ n b0, n ∈ seen ++ l → bins0 !! n = Some b0 →
            ∃ b, acc'.1 !! n = Some b ∧ slots_set bins0 b0 b.
Proof.
  revert seen acc. induction l as [|name l IH]; intros seen acc Hres Hset.
  - simpl. by rewrite app_nil_r.
  - cbn [foldl]. rewrite (assoc_L (++) seen [name] l : seen ++ name :: l = _).
    apply IH; [by apply resolve_imports_of_resolving|].
    pose proof (resolving_agree _ _ _ Hres) as Hagree.
    intros n b0 Hn Hb0. destruct acc as [bins log]. cbn [fst] in *.
    unfold resolve_imports_of.
    pose proof (Hres n) as Hresn. rewrite Hb0 in Hresn. cbn [fst] in Hresn.
    destruct Hresn as (bn & Hbn & Hsame & _).
    destruct (bins !! name) as [bcur|] eqn:Hcur.
    2:{ cbn [fst]. apply elem_of_app in Hn as [Hn| ->%list_elem_of_singleton];
          [by apply Hset|congruence]. }
    destruct (collect_resolved bins bcur log) as [resolved log1] eqn:Hcol.
    destruct (patch_imports resolved bcur log1) as [b2 log2] eqn:Hpatch.
    cbn [fst]. destruct (decide (name = n)) as [->|Hne].
    + assert (bcur = bn) as -> by congruence.
      rewrite lookup_insert_eq. exists b2. split; [done|].
      pose proof (patch_imports_spec resolved bn log1) as (_ & Hri & _).
      rewrite Hpatch in Hri. cbn [fst] in Hri.
      assert (resolved = resolved_of bins0 b0) as ->.
      { unfold resolved_of.
        rewrite (collect_resolved_agree bins0 bins b0 bn [] log Hagree Hsame).
        by rewrite Hcol. }
      intros x a Hx Ha. rewrite Hri.
      destruct Hsame as (_ & _ & _ & _ & <-).
      rewrite bool_decide_eq_true_2 by done. rewrite Ha.
      by destruct (Binary.resolved_imports bn !! x).
    + rewrite lookup_insert_ne by done.
      apply elem_of_app in Hn as [Hn| ->%list_elem_of_singleton]; [|done].
      by apply Hset.
Qed.

(** Running [resolve_imports_from_libs] again on its result leaves the
    project as it is: every slot that it would patch holds its address
    already. *)
Theorem resolve_imports_from_libs_idempotent (p p1 : Project SimProcedure)
    log1 :
  resolve_imports_from_libs dict_values p = (p1, log1) →
  (∀ n, n ∈ dict_values (binaries p1) → n ∈ dict_values (binaries p)) →
  (resolve_imports_from_libs dict_values p1).1 = p1.
Proof.
  unfold resolve_imports_from_libs at 1. intros Hrun Hdv.
  destruct (resolve_fold_slots_set (binaries p) (dict_values (binaries p)) []
              (binaries p, []) (resolving_init _)) as [Hres Hset].
  { intros n b0 Hn. by apply elem_of_nil in Hn. }
  cbn [app] in Hres, Hset.
  destruct (foldl _ _ _) as [bins1 log'] eqn:Hfold.
  injection Hrun as <- <-. cbn [fst] in *.
  pose proof (resolving_agree _ _ _ Hres) as Hagree. cbn [fst] in Hagree.
  unfold resolve_imports_from_libs. cbn [binaries filename min_addr max_addr
                                         entry sim_procedures].
  assert (∀ l log,
    (∀ n, n ∈ l → n ∈ dict_values (binaries p)) →
    (foldl (λ acc name, resolve_imports_of name acc) (bins1, log) l).1 = bins1)
    as Hsame.
  { induction l as [|name l IH]; intros log Hl; [done|].
    cbn [foldl]. unfold resolve_imports_of at 2.
    destruct (bins1 !! name) as [b1|] eqn:Hb1; [|apply IH; set_solver].
    destruct (collect_resolved bins1 b1 log) as [resolved log2] eqn:Hcol.
    destruct (patch_imports resolved b1 log2) as [b2 log3] eqn:Hpatch.
    assert (b2 = b1) as ->.
    { pose proof (Hagree name) as Hn. rewrite Hb1 in Hn.
      destruct (binaries p !! name) as [b0|] eqn:Hb0; [|done].
      destruct (Hset name b0) as (b & Hb & Hslots); [set_solver|done|].
      assert (b = b1) as -> by congruence.
      pose proof (patch_imports_noop resolved b1 log2) as Hnoop.
      rewrite Hpatch in Hnoop. apply Hnoop.
      intros x a Hx Ha. apply Hslots.
      - by destruct Hn as (_ & _ & _ & _ & ->).
      - unfold resolved_of.
        rewrite (collect_resolved_agree (binaries p) bins1 b0 b1 [] log
                   Hagree Hn).
        by rewrite Hcol. }
    rewrite insert_id by done. apply IH. set_solver. }
  specialize (Hsame (dict_values bins1) [] Hdv).
  destruct (foldl _ (bins1, []) _) as [bins2 log2]. cbn [fst] in *.
  by subst bins2.
Qed.

End ResolveTwice.

Lemma resolve_imports_from_libs_idempotent_witness :
  let dv := λ m : gmap string Binary.t, elements (dom m) in
  let p1 := (resolve_imports_from_libs dv two_images).1 in
  (resolve_imports_from_libs dv p1).1 = p1.
Proof.
  intros dv p1.
  apply (resolve_imports_from_libs_idempotent dv two_images p1
           (resolve_imports_from_libs dv two_images).2).
  - vm_compute. reflexivity.
  - vm_compute. done.
Defined.

(** ** The bytes that [set_sim_procedure] writes *)

Lemma with_mem_id b : with_mem (Binary.ida_mem b) b = b.
Proof. by destruct b. Qed.

Lemma write_bytes_from (hs : list byte) b addr m k :
  let b' := foldl (λ b '(n, p), Binary.set_mem (addr + n) p b) b
                  (zip (seqZ m (Z.of_nat (length hs))) hs) in
  b' = with_mem (Binary.ida_mem b') b
  ∧ Binary.ida_mem b' !! k
    = if bool_decide (addr + m ≤ k < addr + m + Z.of_nat (length hs))
      then hs !! Z.to_nat (k - addr - m)
      else Binary.ida_mem b !! k.
Proof.
  revert b m. induction hs as [|h hs IH]; intros b m.
  - simpl. rewrite with_mem_id. split; [done|].
    by rewrite bool_decide_eq_false_2 by lia.
  - cbn [length]. rewrite seqZ_cons by lia.
    replace (Z.pred (Z.of_nat (S (length hs)))) with (Z.of_nat (length hs))
      by lia.
    cbn [zip zip_with foldl].
    destruct (IH (Binary.set_mem (addr + m) h b) (Z.succ m)) as [Hw Hm].
    split; [by rewrite Hw at 1|].
    rewrite Hm. cbn [Binary.set_mem Binary.ida_mem].
    case_bool_decide as H1; case_bool_decide as H2; try lia.
    + replace (Z.to_nat (k - addr - m)) with (S (Z.to_nat (k - addr - Z.succ m)))
        by lia. reflexivity.
    + assert (k = addr + m) as -> by lia. rewrite lookup_insert_eq.
      replace (Z.to_nat (addr + m - addr - m)) with 0%nat by lia. reflexivity.
    + rewrite lookup_insert_ne by lia. done.
Qed.

Lemma write_bytes_mem (hs : list byte) b addr k :
  write_bytes hs b addr = with_mem (Binary.ida_mem (write_bytes hs b addr)) b
  ∧ Binary.ida_mem (write_bytes hs b addr) !! k
    = if bool_decide (covers (Z.of_nat (length hs)) addr k)
      then hs !! Z.to_nat (k - addr)
      else Binary.ida_mem b !! k.
Proof.
  unfold write_bytes, covers.
  destruct (write_bytes_from hs b addr 0 k) as [Hw Hm]. split; [done|].
  rewrite Hm. rewrite !Z.add_0_r, Z.sub_0_r. done.
Qed.

(** Outside the sites nothing is written. *)
Lemma patch_sites_outside (hs : list byte) sites b k :
  let b' := foldl (write_bytes hs) b sites in
  b' = with_mem (Binary.ida_mem b') b
  ∧ ((∀ s, s ∈ sites → ¬ covers (Z.of_nat (length hs)) s k) →
     Binary.ida_mem b' !! k = Binary.ida_mem b !! k).
Proof.
  revert b. induction sites as [|s0 sites IH]; intros b.
  - simpl. by rewrite with_mem_id.
  - cbn [foldl]. destruct (IH (write_bytes hs b s0)) as [Hw Hm].
    destruct (write_bytes_mem hs b s0 k) as [Hw0 Hm0]. split.
    + etrans; [exact Hw|]. set (m := Binary.ida_mem _).
      by rewrite Hw0.
    + intros Hout. rewrite Hm by (intros s Hs; apply Hout; by right).
      rewrite Hm0. rewrite bool_decide_eq_false_2; [done|].
      apply Hout. by left.
Qed.

(** At sites that do not overlap, the bytes are those of [hs]. *)
Lemma patch_sites_inside (hs : list byte) sites b s k :
  (∀ s1 s2, s1 ∈ sites → s2 ∈ sites →
            s1 = s2 ∨ s1 + Z.of_nat (length hs) ≤ s2
            ∨ s2 + Z.of_nat (length hs) ≤ s1) →
  s ∈ sites → covers (Z.of_nat (length hs)) s k →
  Binary.ida_mem (foldl (write_bytes hs) b sites) !! k
  = hs !! Z.to_nat (k - s).
Proof.
  revert b s. induction sites as [|s0 sites IH]; intros b s Hsep Hs Hk.
  - by apply elem_of_nil in Hs.
  - cbn [foldl].
    assert (∀ s1 s2, s1 ∈ sites → s2 ∈ sites →
              s1 = s2 ∨ s1 + Z.of_nat (length hs) ≤ s2
              ∨ s2 + Z.of_nat (length hs) ≤ s1) as Hsep'.
    { intros s1 s2 H1 H2. apply Hsep; by right. }
    destruct (decide (Exists (λ s', covers (Z.of_nat (length hs)) s' k) sites))
      as [Hex|Hnex].
    + apply Exists_exists in Hex as (s' & Hs' & Hk').
      rewrite (IH (write_bytes hs b s0) s' Hsep' Hs' Hk').
      unfold covers in *.
      destruct (Hsep s s' Hs) as [->|[?|?]]; [by right|done|lia|lia].
    + destruct (patch_sites_outside hs sites (write_bytes hs b s0) k)
        as [_ Hout].
      rewrite Hout.
      2:{ intros s' Hs' Hk'. apply Hnex, Exists_exists. by exists s'. }
      apply elem_of_cons in Hs as [->|Hs].
      * destruct (write_bytes_mem hs b s0 k) as [_ ->].
        by rewrite bool_decide_eq_true_2.
      * destruct Hnex. apply Exists_exists. by exists s.
Qed.

Section PatchSites.
Context {SimProcedure : Type}.
Implicit Type p : Project SimProcedure.
Variable md5_digest : string → list byte.
Hypothesis md5_digest_16 : ∀ s, length (md5_digest s) = 16%nat.

Lemma hashed_bytes_length (lib func_name : string) :
  length (take 8 (md5_digest (lib ++ "_" ++ func_name))) = 8%nat.
Proof. rewrite length_take, md5_digest_16. lia. Qed.

(** When the patch sites of the import do not overlap, the eight bytes
    at each of them unpack to the pseudo-address; what lies outside the
    sites, in this image and in the other images, is as it was. *)
Theorem set_sim_procedure_patches p binary b lib func_name sim_proc :
  binaries p !! binary = Some b →
  (∀ s1 s2, s1 ∈ Binary.get_import_addrs b func_name →
            s2 ∈ Binary.get_import_addrs b func_name →
            s1 = s2 ∨ s1 + 8 ≤ s2 ∨ s2 + 8 ≤ s1) →
  ∃ p' b',
    set_sim_procedure md5_digest p binary lib func_name sim_proc = Returned p'
    ∧ binaries p' !! binary = Some b'
    ∧ (∀ n, n ≠ binary → binaries p' !! n = binaries p !! n)
    ∧ b' = with_mem (Binary.ida_mem b') b
    ∧ (∀ s, s ∈ Binary.get_import_addrs b func_name →
            ∃ bytes,
              (λ n, Binary.ida_mem b' !! (s + n)) <$> seqZ 0 8
              = Some <$> bytes
              ∧ struct_unpack_Q bytes
                = Returned (pseudo_address md5_digest lib func_name))
    ∧ (∀ k, (∀ s, s ∈ Binary.get_import_addrs b func_name →
                  ¬ covers 8 s k) →
            Binary.ida_mem b' !! k = Binary.ida_mem b !! k).
Proof.
  intros Hb Hsep. unfold set_sim_procedure. rewrite Hb.
  rewrite unpack_pseudo_address by done. cbn [mbind run_mbind run_bind mret run_mret].
  set (hs := take 8 (md5_digest (lib ++ "_" ++ func_name))).
  pose proof (hashed_bytes_length lib func_name) as Hlen. fold hs in Hlen.
  set (sites := Binary.get_import_addrs b func_name) in *.
  eexists _, (foldl (write_bytes hs) b sites). split; [done|].
  cbn [binaries]. split; [apply lookup_insert_eq|].
  split; [intros n Hn; by apply lookup_insert_ne|].
  split; [by destruct (patch_sites_outside hs sites b 0)|]. split.
  - intros s Hs. exists hs. split; [|by apply unpack_pseudo_address].
    assert (∀ n, 0 ≤ n < 8 →
              Binary.ida_mem (foldl (write_bytes hs) b sites) !! (s + n)
              = hs !! Z.to_nat n) as Hbyte.
    { intros n Hn.
      rewrite (patch_sites_inside hs sites b s (s + n)).
      - f_equal. lia.
      - rewrite Hlen. exact Hsep.
      - done.
      - unfold covers. rewrite Hlen. lia. }
    destruct hs as [|b0 [|b1 [|b2 [|b3 [|b4 [|b5 [|b6 [|b7 [|]]]]]]]]];
      try done.
    change (seqZ 0 8) with [0; 1; 2; 3; 4; 5; 6; 7].
    cbn [fmap list_fmap].
    rewrite !Hbyte by lia. reflexivity.
  - intros k Hout. destruct (patch_sites_outside hs sites b k) as [_ Hm].
    apply Hm. intros s Hs. rewrite Hlen. by apply Hout.
Qed.

End PatchSites.

Lemma set_sim_procedure_patches_witness :
  ∃ p' b',
    set_sim_procedure MD5.digest two_images "a.out" "libc.so.6" "printf"
                      "SimPrintf" = Returned p'
    ∧ binaries p' !! "a.out" = Some b'
    ∧ (∀ n, n ≠ "a.out" → binaries p' !! n = binaries two_images !! n)
    ∧ b' = with_mem (Binary.ida_mem b') a_out
    ∧ (∀ s, s ∈ Binary.get_import_addrs a_out "printf" →
            ∃ bytes,
              (λ n, Binary.ida_mem b' !! (s + n)) <$> seqZ 0 8
              = Some <$> bytes
              ∧ struct_unpack_Q bytes
                = Returned (pseudo_address MD5.digest "libc.so.6" "printf"))
    ∧ (∀ k, (∀ s, s ∈ Binary.get_import_addrs a_out "printf" →
                  ¬ covers 8 s k) →
            Binary.ida_mem b' !! k = Binary.ida_mem a_out !! k).
Proof.
  apply (set_sim_procedure_patches MD5.digest md5_digest_length two_images
           "a.out" a_out).
  - vm_compute. reflexivity.
  - vm_compute. intros s1 s2 H1 H2.
    apply list_elem_of_singleton in H1, H2. left. congruence.
Defined.

(** ** Running a stub *)

Section RunStub.
Context {SimProcedure State : Type}.
Implicit Type p : Project SimProcedure.
Variable md5_digest : string → list byte.
Hypothesis md5_digest_16 : ∀ s, length (md5_digest s) = 16%nat.
Variable arch_name : string.
Variable new_state : State.
Variable set_stack_pointer : State → State.
Variable sim_block : Z → State → exn + SimIRSB.t State.

Local Abbreviation run_at := (sim_run arch_name new_state set_stack_pointer sim_block).

(** Once [set_sim_procedure] has registered a stub for a library and a
    function, the pseudo-address is a stub address, [get_sim_procedure]
    and [sim_run] (called with a state) yield that stub on the state,
    without lifting a block; at every other address [is_sim_procedure]
    and [sim_run] answer as they did before. *)
Theorem stub_runs_after_set p p' binary lib func_name sim_proc :
  set_sim_procedure md5_digest p binary lib func_name sim_proc = Returned p' →
  let k := pseudo_address md5_digest lib func_name in
  is_sim_procedure p' k = true
  ∧ (∀ st : State,
       get_sim_procedure p' k st = Some (RunProcedure sim_proc st))
  ∧ (∀ st, run_at p' (WhereAddr k) (Some st)
           = Returned (Some (RunProcedure sim_proc st)))
  ∧ (∀ st exit_state, run_at p' (WhereExit k exit_state) (Some st)
                      = Returned (Some (RunProcedure sim_proc st)))
  ∧ (∀ a, a ≠ k →
          is_sim_procedure p' a = is_sim_procedure p a
          ∧ (∀ st : State,
               get_sim_procedure p' a st = get_sim_procedure p a st)
          ∧ ∀ w st, (w = WhereAddr a ∨ ∃ s, w = WhereExit a s) →
                    run_at p' w st = run_at p w st).
Proof.
  intros Hset k.
  apply set_sim_procedure_inv in Hset as (b & b' & k' & Hb & Hk & ->).
  rewrite unpack_pseudo_address in Hk by done. injection Hk as <-. fold k.
  assert (is_sim_procedure
            (mkProject (<[binary:=b']> (binaries p)) (filename p) (min_addr p)
               (max_addr p) (entry p) (<[k:=sim_proc]> (sim_procedures p))) k
          = true) as His.
  { unfold is_sim_procedure. cbn [sim_procedures].
    apply bool_decide_eq_true. rewrite dom_insert_L. set_solver. }
  assert (∀ st : State, get_sim_procedure
            (mkProject (<[binary:=b']> (binaries p)) (filename p) (min_addr p)
               (max_addr p) (entry p) (<[k:=sim_proc]> (sim_procedures p))) k st
          = Some (RunProcedure sim_proc st)) as Hget.
  { intros st. unfold get_sim_procedure. cbn [sim_procedures].
    rewrite bool_decide_eq_true_2 by (rewrite dom_insert_L; set_solver).
    by rewrite lookup_insert_eq. }
  split; [done|]. split; [done|]. split; [|split].
  - intros st. unfold sim_run. simpl. by rewrite His, Hget.
  - intros st exit_state. unfold sim_run. simpl. by rewrite His, Hget.
  - intros a Ha.
    assert (is_sim_procedure
              (mkProject (<[binary:=b']> (binaries p)) (filename p) (min_addr p)
                 (max_addr p) (entry p) (<[k:=sim_proc]> (sim_procedures p))) a
            = is_sim_procedure p a) as Hisa.
    { unfold is_sim_procedure. cbn [sim_procedures].
      apply bool_decide_ext. rewrite dom_insert_L. set_solver. }
    assert (∀ st : State, get_sim_procedure
              (mkProject (<[binary:=b']> (binaries p)) (filename p) (min_addr p)
                 (max_addr p) (entry p) (<[k:=sim_proc]> (sim_procedures p))) a st
            = get_sim_procedure p a st) as Hgeta.
    { intros st. unfold get_sim_procedure. cbn [sim_procedures].
      rewrite lookup_insert_ne by done.
      rewrite (bool_decide_ext (a ∈ dom (<[k:=sim_proc]> (sim_procedures p)))
                 (a ∈ dom (sim_procedures p)))
        by (rewrite dom_insert_L; set_solver).
      done. }
    split; [done|]. split; [done|].
    intros w st [->|[s ->]]; unfold sim_run; simpl.
    + destruct st as [st|]; simpl; [by rewrite Hisa, Hgeta|].
      destruct initial_state as [st| |]; simpl; [|done..].
      by rewrite Hisa, Hgeta.
    + by rewrite Hisa, Hgeta.
Qed.


End RunStub.

Lemma stub_runs_after_set_witness :
  ∃ p',
    set_sim_procedure MD5.digest two_images "a.out" "libc.so.6" "printf"
                      "SimPrintf" = Returned p'
    ∧ let k := pseudo_address MD5.digest "libc.so.6" "printf" in
      let run_at := sim_run "AMD64" tt id jump_program in
      is_sim_procedure p' k = true
      ∧ (∀ st : (),
           get_sim_procedure p' k st = Some (RunProcedure "SimPrintf" st))
      ∧ (∀ st, run_at p' (WhereAddr k) (Some st)
               = Returned (Some (RunProcedure "SimPrintf" st)))
      ∧ (∀ st exit_state, run_at p' (WhereExit k exit_state) (Some st)
                          = Returned (Some (RunProcedure "SimPrintf" st)))
      ∧ (∀ a, a ≠ k →
              is_sim_procedure p' a = is_sim_procedure two_images a
              ∧ (∀ st : (), get_sim_procedure p' a st
                            = get_sim_procedure two_images a st)
              ∧ ∀ w st, (w = WhereAddr a ∨ ∃ s, w = WhereExit a s) →
                        run_at p' w st = run_at two_images w st).
Proof.
  eexists. split; [vm_compute; reflexivity|].
  eapply (stub_runs_after_set MD5.digest md5_digest_length "AMD64" tt id
            jump_program two_images _ "a.out" "libc.so.6" "printf" "SimPrintf").
  vm_compute. reflexivity.
Defined.

(** ** The loop over the imports of the main image *)

Lemma for_each_returns {A S : Type} (P : S → Prop) (body : S → A → run S) l s :
  (∀ s x, x ∈ l → P s → ∃ s', body s x = Returned s' ∧ P s') →
  P s → ∃ s', for_each body s l = Returned s' ∧ P s'.
Proof.
  revert s. induction l as [|x l IH]; intros s Hbody Hs; [by exists s|].
  simpl. destruct (Hbody s x) as (s1 & -> & Hs1); [by left|done|].
  simpl. apply IH; [|done]. intros s2 y Hy. apply Hbody. by right.
Qed.

(** What each step reaches, and the steps after it keep, holds for every
    element at the end. *)
Lemma for_each_reaches {A S : Type} (R : S → S → Prop) (G : A → S → Prop)
    (body : S → A → run S) l s s' :
  (∀ s, R s s) → (∀ s1 s2 s3, R s1 s2 → R s2 s3 → R s1 s3) →
  (∀ x s1 s2, G x s1 → R s1 s2 → G x s2) →
  (∀ s1 x s2, x ∈ l → body s1 x = Returned s2 → R s1 s2 ∧ G x s2) →
  for_each body s l = Returned s' → R s s' ∧ ∀ x, x ∈ l → G x s'.
Proof.
  intros Hrefl Htrans Hkeep. revert s.
  induction l as [|x l IH]; intros s Hbody Hrun.
  - simpl in Hrun. injection Hrun as <-. split; [done|].
    by intros x Hx%elem_of_nil.
  - simpl in Hrun. destruct (body s x) as [s1| |] eqn:Hx; try done.
    simpl in Hrun. destruct (Hbody s x s1) as [HR HG]; [by left|done|].
    destruct (IH s1) as [HR' HG']; [|done|].
    { intros s2 y s3 Hy. apply Hbody. by right. }
    split; [by eapply Htrans|].
    intros y [->|Hy]%elem_of_cons; [by eapply Hkeep|by apply HG'].
Qed.

Section StubsOfMain.
Context {SimProcedure : Type}.
Implicit Type p : Project SimProcedure.
Variable md5_digest : string → list byte.
Hypothesis md5_digest_16 : ∀ s, length (md5_digest s) = 16%nat.
Variable SimProcedures : gmap string (gmap string SimProcedure).

Lemma set_sim_procedure_returns p binary lib func_name sim_proc :
  is_Some (binaries p !! binary) →
  ∃ p', set_sim_procedure md5_digest p binary lib func_name sim_proc
        = Returned p'
        ∧ is_Some (binaries p' !! binary)
        ∧ sim_procedures p'
          = <[pseudo_address md5_digest lib func_name := sim_proc]>
              (sim_procedures p).
Proof.
  intros [b Hb]. unfold set_sim_procedure. rewrite Hb.
  rewrite unpack_pseudo_address by done. simpl.
  eexists. split; [done|]. simpl. split; [|done].
  rewrite lookup_insert_eq. by eexists.
Qed.

(** [resolve_imports_using_sim_procedures] raises [KeyError] when no
    image is registered under the file name of the project, and returns
    otherwise. *)
Theorem stub_resolution_returns p :
  match binaries p !! filename p with
  | None =>
      resolve_imports_using_sim_procedures md5_digest SimProcedures p
      = Raised KeyError
  | Some _ =>
      ∃ p' log,
        resolve_imports_using_sim_procedures md5_digest SimProcedures p
        = Returned (p', log)
  end.
Proof.
  unfold resolve_imports_using_sim_procedures.
  destruct (binaries p !! filename p) as [main|] eqn:Hmain; [|done].
  set (P := λ s : Project SimProcedure * list log_event,
              is_Some (binaries s.1 !! filename p)).
  destruct (for_each_returns P
    (λ '(p0, log) lib_name,
       let log0 := log ++ [AbstractProcLib lib_name] in
       match SimProcedures !! lib_name with
       | Some functions =>
           for_each
             (λ '(p1, log1) '(imp, _),
                let log2 := log1 ++ [AbstractProcImport imp] in
                match functions !! imp with
                | Some sim_proc =>
                    let log3 := log2 ++ [AbstractProcFound imp] in
                    p2 ← set_sim_procedure md5_digest p1 (filename p)
                           lib_name imp sim_proc;
                    mret (p2, log3)
                | None => mret (p1, log2)
                end) (p0, log0) (Binary.get_imports main)
       | None => mret (p0, log0)
       end) (Binary.get_lib_names main) (p, []))
    as ([p' log] & Hrun & _); [|by unfold P; simpl; rewrite Hmain|by eauto].
  intros [p0 log0] lib _ HP0.
  destruct (SimProcedures !! lib) as [functions|]; [|by eexists].
  apply (for_each_returns P); [|done].
  intros [p1 log1] [imp sites] _ HP1.
  destruct (functions !! imp) as [sim_proc|]; [|by eexists].
  destruct (set_sim_procedure_returns p1 (filename p) lib imp sim_proc HP1)
    as (p2 & -> & HP2 & _).
  simpl. by eexists.
Qed.

(** Every import of the main image for which one of the libraries it
    names offers a stub has its pseudo-address registered at the end,
    and what was registered before stays registered. *)
Theorem stubs_registered p p' log main :
  resolve_imports_using_sim_procedures md5_digest SimProcedures p
  = Returned (p', log) →
  binaries p !! filename p = Some main →
  (∀ a, is_sim_procedure p a = true → is_sim_procedure p' a = true)
  ∧ ∀ lib imp sites functions sim_proc,
      lib ∈ Binary.get_lib_names main →
      (imp, sites) ∈ Binary.get_imports main →
      SimProcedures !! lib = Some functions →
      functions !! imp = Some sim_proc →
      is_sim_procedure p' (pseudo_address md5_digest lib imp) = true.
Proof.
  unfold resolve_imports_using_sim_procedures. intros Hrun Hmain.
  rewrite Hmain in Hrun.
  set (R := λ s1 s2 : Project SimProcedure * list log_event,
              dom (sim_procedures s1.1) ⊆ dom (sim_procedures s2.1)).
  assert (∀ s, R s s) as Hrefl by (intros s; unfold R; set_solver).
  assert (∀ s1 s2 s3, R s1 s2 → R s2 s3 → R s1 s3) as Htrans
    by (unfold R; set_solver).
  set (G := λ (lib : string) (s : Project SimProcedure * list log_event),
              ∀ imp sites functions sim_proc,
                (imp, sites) ∈ Binary.get_imports main →
                SimProcedures !! lib = Some functions →
                functions !! imp = Some sim_proc →
                pseudo_address md5_digest lib imp ∈ dom (sim_procedures s.1)).
  apply (for_each_reaches R G) in Hrun as [HR HG]; try done.
  - unfold is_sim_procedure. split.
    + intros a Ha%bool_decide_eq_true. apply bool_decide_eq_true.
      by apply HR.
    + intros lib imp sites functions sim_proc Hlib Himp Hfuns Hfun.
      apply bool_decide_eq_true. by eapply (HG lib Hlib).
  - unfold G, R. intros lib s1 s2 HG1 HR12 imp sites functions sim_proc ???.
    eapply HR12, HG1; done.
  - intros [p0 log0] lib [p1 log1] Hlib. simpl.
    destruct (SimProcedures !! lib) as [functions|] eqn:Hfuns.
    2:{ intros [= <- <-]. split; [unfold R; simpl; set_solver|].
        unfold G. intros; congruence. }
    set (G' := λ (x : string * list Z)
                 (s : Project SimProcedure * list log_event),
                 ∀ sim_proc, functions !! x.1 = Some sim_proc →
                   pseudo_address md5_digest lib x.1 ∈ dom (sim_procedures s.1)).
    intros Hinner.
    apply (for_each_reaches R G') in Hinner as [HR' HG']; try done.
    + split; [exact HR'|].
      unfold G. intros imp sites functions' sim_proc Himp Hf Hs.
      assert (functions' = functions) as -> by congruence.
      by apply (HG' (imp, sites) Himp sim_proc).
    + unfold G', R. intros x s1 s2 HG1 HR12 sim_proc Hs. by eapply HR12, HG1.
    + intros [p2 log2] [imp sites] [p3 log3] _. simpl.
      destruct (functions !! imp) as [sim_proc|] eqn:Hfun.
      2:{ intros [= <- <-]. split; [unfold R; simpl; set_solver|].
          unfold G'. simpl. congruence. }
      destruct (set_sim_procedure _ _ _ _ _ _) as [p4| |] eqn:Hset; try done.
      simpl. intros [= <- <-].
      apply set_sim_procedure_inv in Hset as (b & b' & k & Hb & Hk & ->).
      rewrite unpack_pseudo_address in Hk by done. injection Hk as <-.
      unfold R, G'. simpl. rewrite dom_insert_L. split; [set_solver|].
      intros _ _. set_solver.
Qed.

End StubsOfMain.

Lemma stub_resolution_returns_witness :
  (∀ s, length (MD5.digest s) = 16%nat)
  ∧ ∃ p' log,
      resolve_imports_using_sim_procedures MD5.digest libc_stubs two_images
      = Returned (p', log).
Proof.
  split; [exact md5_digest_length|].
  generalize
    (stub_resolution_returns MD5.digest md5_digest_length libc_stubs
       two_images).
  replace (binaries two_images !! filename two_images) with (Some a_out)
    by (vm_compute; reflexivity).
  exact (λ H, H).
Defined.

Lemma stubs_registered_witness :
  ∃ p' log,
    resolve_imports_using_sim_procedures MD5.digest libc_stubs two_images
    = Returned (p', log)
    ∧ (∀ a, is_sim_procedure two_images a = true →
            is_sim_procedure p' a = true)
    ∧ ∀ lib imp sites functions sim_proc,
        lib ∈ Binary.get_lib_names a_out →
        (imp, sites) ∈ Binary.get_imports a_out →
        libc_stubs !! lib = Some functions →
        functions !! imp = Some sim_proc →
        is_sim_procedure p' (pseudo_address MD5.digest lib imp) = true.
Proof.
  eexists _, _. split; [vm_compute; reflexivity|].
  eapply (stubs_registered MD5.digest md5_digest_length libc_stubs two_images).
  - vm_compute. reflexivity.
  - vm_compute. reflexivity.
Defined.
